(** * Universal URL Codec: a shallow embedding of [src/index.ts]

    The library is five functions ([encode], [decode], [encodeUrl],
    [encodeQuery], [decodeQuery]) over JavaScript strings.

    - A JavaScript string is a sequence of 16-bit UTF-16 code units; it is
      a [list Z] here, each element a code unit in [0, 65536)
      ([is_code_unit]).  [js "..."] writes an ASCII literal.
    - A call returns a value or throws: [completion] is the error monad of
      the two outcomes, [try_catch] the [try]/[catch] of the source.  The
      [console.warn] of [decode] writes a diagnostic and is left out.
    - The built-ins the library calls are transcribed from ECMA-262:
      [encodeURIComponent] and [decodeURIComponent] (the abstract
      operations Encode and Decode), the string iterator behind
      [Array.from], [String.prototype.replace], [split] and [join].
    - The object [decodeQuery] fills is a finite map of own properties
      ([gmap]) under [Object.prototype] ([object_set]).
    - [new URL(url)] is a parameter of [encodeUrl]; [WHATWG.new_URL]
      describes it on simple [http(s)] URLs, for the examples.

    The definitions come first, the proofs after them. *)

From Stdlib Require Import ZArith Lia.
From stdpp Require Import base option list gmap strings.

Local Open Scope Z_scope.

(** ** Strings and values *)

Abbreviation jsstring := (list Z).

(** An ASCII literal as a JavaScript string. *)
Definition js (s : string) : jsstring :=
  (λ a, Z.of_nat (Ascii.nat_of_ascii a)) <$> String.list_ascii_of_string s.

Definition is_code_unit (c : Z) : Prop := 0 <= c < 65536.

(** The values a caller can pass where the TypeScript signature says
    [string]; only [typeof] looks at them. *)
Inductive value : Type :=
  | VUndefined
  | VNull
  | VBoolean (b : bool)
  | VNumber (n : Z)
  | VString (s : jsstring)
  | VObject.

Definition typeof_is_string (v : value) : bool :=
  match v with VString _ => true | _ => false end.

(** ** Completions: a returned value or a thrown exception *)

Inductive exn : Type := TypeError | URIError.

Inductive completion (A : Type) : Type :=
  | Returns (a : A)
  | Throws (e : exn).
Arguments Returns {A} a.
Arguments Throws {A} e.

#[export] Instance completion_ret : MRet completion := λ A a, Returns a.
#[export] Instance completion_bind : MBind completion := λ A B f m,
  match m with Returns a => f a | Throws e => Throws e end.
#[export] Instance completion_fmap : FMap completion := λ A B f m,
  match m with Returns a => Returns (f a) | Throws e => Throws e end.

(** [try { body } catch { handler }] *)
Definition try_catch {A} (body : completion A) (handler : exn → completion A)
  : completion A :=
  match body with Returns a => Returns a | Throws e => handler e end.

Definition returns {A} (m : completion A) : Prop := ∃ a, m = Returns a.

(** ** Character classes *)

Definition between (lo hi c : Z) : bool := (lo <=? c) && (c <=? hi).

Definition is_alpha (c : Z) : bool := between 65 90 c || between 97 122 c.
Definition is_digit (c : Z) : bool := between 48 57 c.

(** [uriUnescaped] of ECMA-262: letters, digits and the marks
    [- _ . ! ~ * ' ( )]. *)
Definition uriMark (c : Z) : bool :=
  bool_decide (c ∈ [45; 95; 46; 33; 126; 42; 39; 40; 41]).
Definition uriUnescaped (c : Z) : bool := is_alpha c || is_digit c || uriMark c.

Definition is_leading_surrogate (c : Z) : bool := between 0xD800 0xDBFF c.
Definition is_trailing_surrogate (c : Z) : bool := between 0xDC00 0xDFFF c.

(** A string with no unpaired surrogate (well-formed UTF-16). *)
Fixpoint well_formed (s : jsstring) : bool :=
  match s with
  | [] => true
  | c :: rest =>
      if is_leading_surrogate c then
        match rest with
        | c2 :: rest' => is_trailing_surrogate c2 && well_formed rest'
        | [] => false
        end
      else if is_trailing_surrogate c then false
      else well_formed rest
  end.

(** ** [encodeURIComponent] (ECMA-262, abstract operation Encode) *)

Definition hex_digit (d : Z) : Z := if d <? 10 then 48 + d else 55 + d.

(** One octet as ["%XX"], upper-case hexadecimal. *)
Definition percent (b : Z) : jsstring := [37; hex_digit (b / 16); hex_digit (b mod 16)].

Definition percent_all (octets : list Z) : jsstring := octets ≫= percent.

(** The UTF-8 transformation of a code point. *)
Definition utf8_octets (cp : Z) : list Z :=
  if cp <? 0x80 then [cp]
  else if cp <? 0x800 then [0xC0 + cp / 64; 0x80 + cp mod 64]
  else if cp <? 0x10000 then
    [0xE0 + cp / 4096; 0x80 + (cp / 64) mod 64; 0x80 + cp mod 64]
  else
    [0xF0 + cp / 262144; 0x80 + (cp / 4096) mod 64;
     0x80 + (cp / 64) mod 64; 0x80 + cp mod 64].

Definition UTF16SurrogatePairToCodePoint (lead trail : Z) : Z :=
  (lead - 0xD800) * 0x400 + (trail - 0xDC00) + 0x10000.

(** The loop of Encode, on the part of the string not yet read.  A code
    unit of the unreserved set is copied; otherwise the code point at the
    position is read ([CodePointAt]), an unpaired surrogate throws a
    URIError, and the octets of the code point are written as escapes. *)
Fixpoint encodeURIComponent (s : jsstring) : completion jsstring :=
  match s with
  | [] => Returns []
  | c :: rest =>
      if uriUnescaped c then (c ::.) <$> encodeURIComponent rest
      else if is_leading_surrogate c then
        match rest with
        | c2 :: rest' =>
            if is_trailing_surrogate c2 then
              (percent_all (utf8_octets (UTF16SurrogatePairToCodePoint c c2)) ++.)
                <$> encodeURIComponent rest'
            else Throws URIError
        | [] => Throws URIError
        end
      else if is_trailing_surrogate c then Throws URIError
      else (percent_all (utf8_octets c) ++.) <$> encodeURIComponent rest
  end.

(** ** [decodeURIComponent] (ECMA-262, abstract operation Decode) *)

Definition hex_value (c : Z) : option Z :=
  if is_digit c then Some (c - 48)
  else if between 65 70 c then Some (c - 55)
  else if between 97 102 c then Some (c - 87)
  else None.

(** The two code units after a ['%']: [None] when fewer than two are left
    or one is not a hexadecimal digit. *)
Definition ParseHexOctet (s : jsstring) : option Z :=
  match s with
  | h1 :: h2 :: _ =>
      hi ← hex_value h1; lo ← hex_value h2; Some (16 * hi + lo)
  | _ => None
  end.

(** The number of leading 1 bits of an octet (5 stands for "more than 4"). *)
Definition leading_ones (b : Z) : nat :=
  if b <? 0x80 then 0
  else if b <? 0xC0 then 1
  else if b <? 0xE0 then 2
  else if b <? 0xF0 then 3
  else if b <? 0xF8 then 4
  else 5.

(** [j] further escapes ["%XX"], with what follows them. *)
Fixpoint continuation_octets (j : nat) (s : jsstring) : option (list Z * jsstring) :=
  match j with
  | O => Some ([], s)
  | S j' =>
      match s with
      | c :: rest =>
          if c =? 37 then
            b ← ParseHexOctet rest;
            '(octets, rest') ← continuation_octets j' (drop 2 rest);
            Some (b :: octets, rest')
          else None
      | [] => None
      end
  end.

Definition is_continuation (b : Z) : bool := between 0x80 0xBF b.

(** The code point a sequence of octets is the valid UTF-8 encoding of:
    continuation octets are [10xxxxxx], the encoding is the shortest one,
    and the code point is no surrogate and at most [0x10FFFF]. *)
Definition utf8_code_point (octets : list Z) : option Z :=
  match octets with
  | [b0; b1] =>
      let v := (b0 - 0xC0) * 64 + (b1 - 0x80) in
      if is_continuation b1 && (0x80 <=? v) then Some v else None
  | [b0; b1; b2] =>
      let v := (b0 - 0xE0) * 4096 + (b1 - 0x80) * 64 + (b2 - 0x80) in
      if is_continuation b1 && is_continuation b2 && (0x800 <=? v)
         && negb (between 0xD800 0xDFFF v)
      then Some v else None
  | [b0; b1; b2; b3] =>
      let v := (b0 - 0xF0) * 262144 + (b1 - 0x80) * 4096
               + (b2 - 0x80) * 64 + (b3 - 0x80) in
      if is_continuation b1 && is_continuation b2 && is_continuation b3
         && between 0x10000 0x10FFFF v
      then Some v else None
  | _ => None
  end.

Definition UTF16EncodeCodePoint (cp : Z) : jsstring :=
  if cp <=? 0xFFFF then [cp]
  else [0xD800 + (cp - 0x10000) / 1024; 0xDC00 + (cp - 0x10000) mod 1024].

(** The loop of Decode on the part of the string not yet read.  Every
    iteration reads at least one code unit, so [fuel] equal to the length
    of the string is never used up ([Decode_fuel] below). *)
Fixpoint Decode (fuel : nat) (s : jsstring) : completion jsstring :=
  match s with
  | [] => Returns []
  | c :: rest =>
      match fuel with
      | O => Throws URIError
      | S fuel' =>
          if c =? 37 then
            match ParseHexOctet rest with
            | None => Throws URIError
            | Some b =>
                let rest2 := drop 2 rest in
                match leading_ones b with
                | 0%nat => (b ::.) <$> Decode fuel' rest2
                | 1%nat => Throws URIError
                | S (S (S (S (S _)))) => Throws URIError
                | S n' =>
                    match continuation_octets n' rest2 with
                    | None => Throws URIError
                    | Some (octets, rest3) =>
                        match utf8_code_point (b :: octets) with
                        | None => Throws URIError
                        | Some v =>
                            (UTF16EncodeCodePoint v ++.) <$> Decode fuel' rest3
                        end
                    end
                end
            end
          else (c ::.) <$> Decode fuel' rest
      end
  end.

Definition decodeURIComponent (s : jsstring) : completion jsstring :=
  Decode (length s) s.

(** ** [String.prototype.replace] with the global patterns of the source *)

(** [s.replace(/c/g, by)] for a single character [c]. *)
Definition replace_char (c : Z) (by_ : jsstring) (s : jsstring) : jsstring :=
  s ≫= λ x, if x =? c then by_ else [x].

(** [.replace(/!/g,'%21').replace(/'/g,'%27').replace(/\(/g,'%28')
     .replace(/\)/g,'%29').replace(/\*/g,'%2A')] *)
Definition rfc3986 (s : jsstring) : jsstring :=
  replace_char 42 (js "%2A")
    (replace_char 41 (js "%29")
      (replace_char 40 (js "%28")
        (replace_char 39 (js "%27")
          (replace_char 33 (js "%21") s)))).

(** [s.replace(/%20/g, '+')]: leftmost matches, not overlapping. *)
Fixpoint replace_pct20 (s : jsstring) : jsstring :=
  match s with
  | [] => []
  | c :: rest =>
      match rest with
      | c2 :: c3 :: rest' =>
          if (c =? 37) && (c2 =? 50) && (c3 =? 48) then 43 :: replace_pct20 rest'
          else c :: replace_pct20 rest
      | _ => c :: replace_pct20 rest
      end
  end.

(** [parts.join(sep)] *)
Fixpoint join (sep : jsstring) (parts : list jsstring) : jsstring :=
  match parts with
  | [] => []
  | p :: rest =>
      match rest with
      | [] => p
      | _ :: _ => p ++ sep ++ join sep rest
      end
  end.

(** ** [encode] *)

Record EncodeOptions : Type := {
  plusForSpace : bool;
  strict : bool;
  allowedChars : list jsstring;
}.

(** [options = {}]: every field at its default. *)
Definition default_encode : EncodeOptions :=
  {| plusForSpace := false; strict := false; allowedChars := [] |}.

(** [Array.from(str)]: the string iterator yields one string per code
    point, a surrogate pair together and an unpaired surrogate alone. *)
Fixpoint Array_from (s : jsstring) : list jsstring :=
  match s with
  | [] => []
  | c :: rest =>
      if is_leading_surrogate c then
        match rest with
        | c2 :: rest' =>
            if is_trailing_surrogate c2 then [c; c2] :: Array_from rest'
            else [c] :: Array_from rest
        | [] => [[c]]
        end
      else [c] :: Array_from rest
  end.

(** [/[A-Za-z0-9\-_]/.test(char)]: some code unit of [char] is in the class. *)
Definition strict_class (c : Z) : bool :=
  is_alpha c || is_digit c || (c =? 45) || (c =? 95).
Definition strict_test (char : jsstring) : bool := existsb strict_class char.

(** [allowedChars.includes(char)] *)
Definition includes (l : list jsstring) (char : jsstring) : bool :=
  bool_decide (char ∈ l).

(** The callback of [.map] in strict mode (lines 74-90). *)
Definition strict_char (allowed : list jsstring) (char : jsstring)
  : completion jsstring :=
  if strict_test char || includes allowed char then Returns char
  else
    charEncoded ← encodeURIComponent char;
    Returns (rfc3986 charEncoded).

Definition encode (str : value) (options : EncodeOptions) : completion jsstring :=
  match str with
  | VString str =>
      encoded ← encodeURIComponent str;
      encoded ←
        (if strict options then
           join [] <$> mapM (strict_char (allowedChars options)) (Array_from str)
         else Returns (rfc3986 encoded));
      Returns (if plusForSpace options then replace_pct20 encoded else encoded)
  | _ => Throws TypeError (* typeof str !== 'string' *)
  end.

(** ** [decode] *)

Record DecodeOptions : Type := { plusAsSpace : bool }.

Definition default_decode : DecodeOptions := {| plusAsSpace := false |}.

(** [s.replace(/\+/g, ' ')] *)
Definition plus_to_space (s : jsstring) : jsstring := replace_char 43 [32] s.

Definition decode (str : value) (options : DecodeOptions) : completion jsstring :=
  match str with
  | VString str =>
      try_catch
        (let decoded := str in
         let decoded :=
           if plusAsSpace options then plus_to_space decoded else decoded in
         decodeURIComponent decoded)
        (λ _, Returns str)
  | _ => Throws TypeError (* typeof str !== 'string' *)
  end.

(** ** Query strings *)

(** [s.split(sep)] for a one-character separator: never an empty array,
    [''.split(sep)] is [['']]. *)
Fixpoint split (sep : Z) (s : jsstring) : list jsstring :=
  match s with
  | [] => [[]]
  | c :: rest =>
      if c =? sep then [] :: split sep rest
      else
        match split sep rest with
        | piece :: pieces => (c :: piece) :: pieces
        | [] => [[c]]
        end
  end.

(** [for (const x of l) { s = body(s, x) }], leaving the loop when the
    body throws. *)
Fixpoint for_of {A S : Type} (body : S → A → completion S) (l : list A) (s : S)
  : completion S :=
  match l with
  | [] => Returns s
  | x :: l' => s' ← body s x; for_of body l' s'
  end.

(** The object [decodeQuery] fills starts as [{}]: its own properties are
    a finite map, and it inherits from [Object.prototype].  The assignment
    [result[key] = value] creates or overwrites an own property, except
    for the key ["__proto__"]: [Object.prototype] has an accessor of that
    name, so the assignment calls its setter, which does nothing when the
    value is a string (it is neither an object nor [null]). *)
Definition object_set (o : gmap jsstring jsstring) (key value : jsstring)
  : gmap jsstring jsstring :=
  if bool_decide (key = js "__proto__") then o else <[key := value]> o.

Definition decodeQuery (queryString : jsstring) (options : DecodeOptions)
  : completion (gmap jsstring jsstring) :=
  let cleanQuery :=
    match queryString with
    | c :: rest => if c =? 63 then rest else queryString
    | [] => queryString
    end in
  let result : gmap jsstring jsstring := ∅ in
  match cleanQuery with
  | [] => Returns result
  | _ :: _ =>
      let pairs := split 38 cleanQuery in
      for_of
        (λ result pair,
           let parts := split 61 pair in
           (* const [key, value = ''] = parts *)
           let key := from_option VString VUndefined (parts !! 0%nat) in
           let value := VString (default [] (parts !! 1%nat)) in
           decodedKey ← decode key options;
           decodedValue ← decode value options;
           Returns (object_set result decodedKey decodedValue))
        pairs result
  end.

(** [Record<string, string | number | boolean>]: the values of the object
    given to [encodeQuery].  The type of numbers and their [String(n)] are
    parameters: the library only passes them on. *)
Inductive query_value (number : Type) : Type :=
  | QString (s : jsstring)
  | QNumber (n : number)
  | QBoolean (b : bool).
Arguments QString {number} s.
Arguments QNumber {number} n.
Arguments QBoolean {number} b.

Section encodeQuery.
Context {number : Type} (Number_toString : number → jsstring).

(** [String(value)] *)
Definition String_ (v : query_value number) : jsstring :=
  match v with
  | QString s => s
  | QNumber n => Number_toString n
  | QBoolean true => js "true"
  | QBoolean false => js "false"
  end.

(** [params] stands for [Object.entries(params)]: the own enumerable
    properties in the order JavaScript lists them, no key twice. *)
Definition encodeQuery (params : list (jsstring * query_value number))
    (options : EncodeOptions) : completion jsstring :=
  join (js "&") <$>
    mapM (λ '(key, value),
            encodedKey ← encode (VString key) options;
            encodedValue ← encode (VString (String_ value)) options;
            Returns (encodedKey ++ js "=" ++ encodedValue))
         params.

End encodeQuery.

(** ** URLs *)

(** What [encodeUrl] reads of a URL object. *)
Record URL : Type := {
  protocol : jsstring;
  host : jsstring;
  pathname : jsstring;
  searchParams : list (jsstring * jsstring);
  hash : jsstring;
}.

Section encodeUrl.
(** [new URL(url)] is the platform's (the WHATWG URL parser): a URL
    object, or a TypeError when the string does not parse.  It is a
    parameter here, with [None] for "not described"; [WHATWG.new_URL] below
    describes it on simple [http(s)] URLs. *)
Variable new_URL : jsstring → option (completion URL).

Definition encodeUrl (url : value) : option (completion jsstring) :=
  match url with
  | VString url =>
      parsed ← new_URL url;
      Some (try_catch
        (urlObj ← parsed;
         newParams ←
           mapM (λ '(key, value),
                   k ← encode (VString key) default_encode;
                   v ← encode (VString value) default_encode;
                   Returns (k ++ js "=" ++ v))
                (searchParams urlObj);
         let base := protocol urlObj ++ js "//" ++ host urlObj ++ pathname urlObj in
         let query :=
           match newParams with
           | [] => []
           | _ :: _ => js "?" ++ join (js "&") newParams
           end in
         hash ←
           match hash urlObj with
           | [] => Returns []
           | _ :: _ =>
               try_catch
                 (decodedHash ← decodeURIComponent (drop 1 (hash urlObj));
                  h ← encode (VString decodedHash) default_encode;
                  Returns (js "#" ++ h))
                 (λ _,
                  h ← encode (VString (drop 1 (hash urlObj))) default_encode;
                  Returns (js "#" ++ h))
           end;
         Returns (base ++ query ++ hash))
        (λ _, encode (VString url) default_encode))
  | _ => Some (Throws TypeError) (* typeof url !== 'string' *)
  end.

End encodeUrl.

(** The shortest decimal form of a natural number of at most [fuel]
    digits. *)
Fixpoint decimal (fuel : nat) (n : Z) : jsstring :=
  match fuel with
  | O => []
  | S fuel' => (if n <? 10 then [] else decimal fuel' (n / 10)) ++ [48 + n mod 10]
  end.

(** ** The URL parser on simple [http(s)] URLs

    [WHATWG.new_URL] follows the basic URL parser of the WHATWG URL
    Standard (no base URL) and the getters of the URL object, on the
    inputs where the standard's answer needs none of IDNA, IP addresses,
    credentials, dot segments or non-ASCII text.  Outside them it answers
    [None]; it never guesses.  The class, after the leading and trailing
    spaces and controls, tabs and newlines are removed:
    - whatever has no scheme at its start is a parse failure (there is no
      base URL), for every string;
    - the scheme is [http] or [https];
    - everything after the scheme is printable ASCII with no backslash;
    - the authority has no ['@']; the host is dot-separated non-empty
      labels of letters, digits and hyphens, with no two hyphens in a row
      and a last label that does not start with a digit;
    - the path has no ['%'], no ['^'] and no segment ["."] or [".."];
    - the escapes of the query decode to ASCII. *)
Module WHATWG.

Definition is_c0_or_space (c : Z) : bool := c <=? 0x20.
Definition is_tab_or_newline (c : Z) : bool :=
  (c =? 0x09) || (c =? 0x0A) || (c =? 0x0D).

Fixpoint drop_while (p : Z → bool) (s : jsstring) : jsstring :=
  match s with
  | c :: rest => if p c then drop_while p rest else s
  | [] => []
  end.

(** The longest prefix whose code units satisfy [p], and the rest. *)
Fixpoint span (p : Z → bool) (s : jsstring) : jsstring * jsstring :=
  match s with
  | c :: rest =>
      if p c then let '(a, b) := span p rest in (c :: a, b) else ([], s)
  | [] => ([], [])
  end.

(** Steps 1-3 of the parser: strip, then remove tabs and newlines. *)
Definition prepare (input : jsstring) : jsstring :=
  let stripped :=
    reverse (drop_while is_c0_or_space (reverse (drop_while is_c0_or_space input))) in
  filter (λ c, is_tab_or_newline c = false) stripped.

Definition to_lower (c : Z) : Z := if between 65 90 c then c + 32 else c.

Definition is_scheme_char (c : Z) : bool :=
  is_alpha c || is_digit c || (c =? 43) || (c =? 45) || (c =? 46).

(** Scheme start state and scheme state: the lower-cased scheme and what
    follows its [':'], or [None] when the input has no scheme. *)
Definition scan_scheme (input : jsstring) : option (jsstring * jsstring) :=
  match input with
  | c :: _ =>
      if is_alpha c then
        let '(scheme, rest) := span is_scheme_char input in
        match rest with
        | c' :: rest' => if c' =? 58 then Some (to_lower <$> scheme, rest') else None
        | [] => None
        end
      else None
  | [] => None
  end.

Definition default_port (scheme : jsstring) : option Z :=
  if bool_decide (scheme = js "http") then Some 80
  else if bool_decide (scheme = js "https") then Some 443
  else None.

Definition is_printable (c : Z) : bool := between 0x20 0x7E c && negb (c =? 92).

Definition is_terminator (c : Z) : bool := (c =? 47) || (c =? 63) || (c =? 35).

Definition is_label_char (c : Z) : bool := is_alpha c || is_digit c || (c =? 45).

Fixpoint has_double_hyphen (s : jsstring) : bool :=
  match s with
  | c :: rest =>
      match rest with
      | c2 :: _ => ((c =? 45) && (c2 =? 45)) || has_double_hyphen rest
      | [] => false
      end
  | [] => false
  end.

Definition starts_with_digit (s : jsstring) : bool :=
  match s with c :: _ => is_digit c | [] => false end.

(** The hosts described: the host parser lower-cases them and changes
    nothing else. *)
Definition simple_host (buffer : jsstring) : bool :=
  let labels := split 46 buffer in
  forallb (λ l, negb (bool_decide (l = [])) && forallb is_label_char l) labels
  && negb (has_double_hyphen buffer)
  && negb (starts_with_digit (default [] (last labels))).

(** Port state: [Returns None] is the null port. *)
Definition parse_port (scheme buffer : jsstring) : completion (option Z) :=
  if negb (forallb is_digit buffer) then Throws TypeError
  else
    match buffer with
    | [] => Returns None
    | _ :: _ =>
        let port := foldl (λ acc d, acc * 10 + (d - 48)) 0 buffer in
        if 65535 <? port then Throws TypeError
        else if bool_decide (default_port scheme = Some port) then Returns None
        else Returns (Some port)
    end.

(** The percent-encode sets, on printable ASCII. *)
Definition query_set (c : Z) : bool :=
  bool_decide (c ∈ [0x20; 0x22; 0x23; 0x3C; 0x3E]).
Definition special_query_set (c : Z) : bool := query_set c || (c =? 0x27).
Definition path_set (c : Z) : bool :=
  query_set c || bool_decide (c ∈ [0x3F; 0x5E; 0x60; 0x7B; 0x7D]).
Definition fragment_set (c : Z) : bool :=
  bool_decide (c ∈ [0x20; 0x22; 0x3C; 0x3E; 0x60]).

Definition percent_encode (set : Z → bool) (s : jsstring) : jsstring :=
  s ≫= λ c, if set c then percent c else [c].

Definition is_hex (c : Z) : bool := bool_decide (is_Some (hex_value c)).

(** Percent-decode of the standard: a ['%'] not followed by two
    hexadecimal digits stays. *)
Fixpoint percent_decode (s : jsstring) : list Z :=
  match s with
  | [] => []
  | c :: rest =>
      match rest with
      | h1 :: h2 :: rest' =>
          if (c =? 37) && is_hex h1 && is_hex h2
          then default 0 (ParseHexOctet rest) :: percent_decode rest'
          else c :: percent_decode rest
      | _ => c :: percent_decode rest
      end
  end.

(** The first [sep] splits [s]; [None] when there is none. *)
Fixpoint split_first (sep : Z) (s : jsstring) : option (jsstring * jsstring) :=
  match s with
  | [] => None
  | c :: rest =>
      if c =? sep then Some ([], rest)
      else '(a, b) ← split_first sep rest; Some (c :: a, b)
  end.

(** One name or value of the [application/x-www-form-urlencoded] parser;
    [None] when the bytes are not ASCII. *)
Definition urlencoded_string (bytes : jsstring) : option jsstring :=
  let decoded := percent_decode (replace_char 43 [32] bytes) in
  if forallb (λ b, b <? 0x80) decoded then Some decoded else None.

(** The [application/x-www-form-urlencoded] parser, which fills
    [searchParams]. *)
Definition urlencoded_parse (query : jsstring) : option (list (jsstring * jsstring)) :=
  mapM (λ sequence,
          let '(name, value) := default (sequence, []) (split_first 61 sequence) in
          n ← urlencoded_string name;
          v ← urlencoded_string value;
          Some (n, v))
       (filter (λ sequence, sequence ≠ []) (split 38 query)).

Definition simple_path (path : jsstring) : bool :=
  forallb (λ c, negb ((c =? 37) || (c =? 94))) path
  && forallb (λ segment, negb (bool_decide (segment = js ".") || bool_decide (segment = js "..")))
       (split 47 path).

Definition new_URL (url : jsstring) : option (completion URL) :=
  match scan_scheme (prepare url) with
  | None => Some (Throws TypeError)
  | Some (scheme, rest) =>
      if negb (bool_decide (is_Some (default_port scheme))) then None
      else if negb (forallb is_printable rest) then None
      else
        (* special authority slashes, special authority ignore slashes *)
        let rest := drop_while (λ c, c =? 47) rest in
        (* authority state *)
        let '(authority, rest) := span (λ c, negb (is_terminator c)) rest in
        if bool_decide (64 ∈ authority) then None
        else
          (* host state *)
          let '(buffer, port_buffer) :=
            match split_first 58 authority with
            | Some (h, p) => (h, Some p)
            | None => (authority, None)
            end in
          if bool_decide (buffer = []) then Some (Throws TypeError)
          else if negb (simple_host buffer) then None
          else
            (* path start state, path state *)
            let '(path, rest) := span (λ c, negb ((c =? 63) || (c =? 35))) rest in
            if negb (simple_path path) then None
            else
              (* query state, fragment state *)
              let '(query, fragment) :=
                match rest with
                | c :: rest' =>
                    if c =? 63 then
                      let '(q, r) := span (λ c, negb (c =? 35)) rest' in (q, drop 1 r)
                    else ([], rest')
                | [] => ([], [])
                end in
              let query := percent_encode special_query_set query in
              let fragment := percent_encode fragment_set fragment in
              params ← urlencoded_parse query;
              Some (
                port ← parse_port scheme (default [] port_buffer);
                Returns {|
                  protocol := scheme ++ js ":";
                  host := (to_lower <$> buffer)
                          ++ from_option (λ p, js ":" ++ decimal 5 p) [] port;
                  pathname :=
                    match path with
                    | [] => js "/"
                    | _ :: _ => percent_encode path_set path
                    end;
                  searchParams := params;
                  hash :=
                    match fragment with
                    | [] => []
                    | _ :: _ => js "#" ++ fragment
                    end;
                |})
  end.

End WHATWG.

(** ** [verify.js]

    The script carries its own copies of [encode] and [decode] (lines 9-31
    and 34-52).  Its [encode] reads [plusForSpace] and [strict] only, and
    in strict mode leaves the result of [encodeURIComponent] as it is. *)
Module Verify.

Definition encode (str : value) (options : EncodeOptions) : completion jsstring :=
  match str with
  | VString str =>
      encoded ← encodeURIComponent str;
      let encoded := if negb (strict options) then rfc3986 encoded else encoded in
      Returns (if plusForSpace options then replace_pct20 encoded else encoded)
  | _ => Throws TypeError (* typeof str !== 'string' *)
  end.

Definition decode (str : value) (options : DecodeOptions) : completion jsstring :=
  match str with
  | VString str =>
      try_catch
        (let decoded := str in
         let decoded :=
           if plusAsSpace options then plus_to_space decoded else decoded in
         decodeURIComponent decoded)
        (λ _, Returns str)
  | _ => Throws TypeError (* typeof str !== 'string' *)
  end.

End Verify.

(** ** [examples.ts]: [buildSearchUrl]

    An object is the list of its own properties in creation order;
    [filters] is a [Record<string, string>], so every value is a string. *)
Module Examples.

(** CreateDataProperty on an ordinary object: an existing property keeps
    its place and takes the new value, a new one is added last. *)
Fixpoint CreateDataProperty (o : list (jsstring * jsstring)) (key value : jsstring)
  : list (jsstring * jsstring) :=
  match o with
  | [] => [(key, value)]
  | (k, v) :: rest =>
      if bool_decide (k = key) then (k, value) :: rest
      else (k, v) :: CreateDataProperty rest key value
  end.

(** An array index: the canonical decimal form of an integer from [0] to
    [2^32 - 2]. *)
Definition is_array_index (key : jsstring) : bool :=
  match key with
  | [] => false
  | c :: rest =>
      forallb is_digit key
      && (negb (c =? 48) || bool_decide (rest = []))
      && (foldl (λ n d, 10 * n + (d - 48)) 0 key <=? 4294967294)
  end.

(** [Object.entries(o)]: the array indices first, then the other string
    keys in creation order.  The array indices come in ascending order,
    which is the order [filters] lists its own, being itself given as its
    [Object.entries]. *)
Definition Object_entries (o : list (jsstring * jsstring))
  : list (jsstring * jsstring) :=
  filter (λ kv, is_array_index kv.1 = true) o
  ++ filter (λ kv, ¬ is_array_index kv.1 = true) o.

(** [String(n)] for the numbers of a [Record<string, string>]: there is
    none. *)
Definition no_number (n : Empty_set) : jsstring := match n with end.

(** [{ q: query, ...filters }] then [`${baseUrl}?${encodeQuery(params)}`] *)
Definition buildSearchUrl (baseUrl query : jsstring)
    (filters : list (jsstring * jsstring)) : completion jsstring :=
  let params :=
    foldl (λ o '(key, value), CreateDataProperty o key value)
          [(js "q", query)] filters in
  encoded ← encodeQuery no_number
               (prod_map id QString <$> Object_entries params) default_encode;
  Returns (baseUrl ++ js "?" ++ encoded).

End Examples.

(** ** Notions used in the statements *)

(** A Unicode scalar value: a code point that is no surrogate. *)
Definition is_scalar (cp : Z) : Prop :=
  0 <= cp <= 0x10FFFF ∧ ¬ (0xD800 <= cp <= 0xDFFF).

Definition extra_reserved (c : Z) : bool := bool_decide (c ∈ [33; 39; 40; 41; 42]).

Definition strict_only : EncodeOptions :=
  {| plusForSpace := false; strict := true; allowedChars := [] |}.

(** The string [decode] hands to [decodeURIComponent]. *)
Definition plus_substituted (options : DecodeOptions) (s : jsstring) : jsstring :=
  if plusAsSpace options then plus_to_space s else s.

(** A malformed percent escape: a ['%'] that is not followed by two
    hexadecimal digits (the string ends first, or one of them is no
    digit). *)
Definition malformed_escape (s : jsstring) : Prop :=
  ∃ pre post, s = pre ++ 37 :: post ∧ ParseHexOctet post = None.

(** The text of [s] before its first [sep] (all of [s] when it has none). *)
Fixpoint before (sep : Z) (s : jsstring) : jsstring :=
  match s with
  | [] => []
  | c :: rest => if c =? sep then [] else c :: before sep rest
  end.

(** The text of [s] after its first [sep] (empty when it has none). *)
Fixpoint after (sep : Z) (s : jsstring) : jsstring :=
  match s with
  | [] => []
  | c :: rest => if c =? sep then rest else after sep rest
  end.

(** What [decode] returns on a string. *)
Definition decode_text (options : DecodeOptions) (s : jsstring) : jsstring :=
  match decodeURIComponent (plus_substituted options s) with
  | Returns d => d
  | Throws _ => s
  end.

(** The pairs [decodeQuery] reads: one leading ['?'] removed, nothing for
    an empty rest, else the pieces between the ['&']. *)
Definition query_pairs (queryString : jsstring) : list jsstring :=
  let clean :=
    match queryString with
    | c :: rest => if c =? 63 then rest else queryString
    | [] => []
    end in
  match clean with [] => [] | _ :: _ => split 38 clean end.

(** The key of a pair is its text before the first ['=']; the value the
    code keeps is the text between the first and the second ['=']. *)
Definition pair_key (pair : jsstring) : jsstring := before 61 pair.
Definition pair_value (pair : jsstring) : jsstring := before 61 (after 61 pair).

(** The result of [decodeQuery], pair by pair. *)
Definition decode_pairs (options : DecodeOptions) (pairs : list jsstring)
  : gmap jsstring jsstring :=
  foldl (λ result pair,
           object_set result (decode_text options (pair_key pair))
                             (decode_text options (pair_value pair)))
        ∅ pairs.

(** The characters of an encoded field under the default policy: the
    unreserved characters that are not among the five extra ones
    (letters, digits, [- _ . ~]) and ['%']. *)
Definition field_char (c : Z) : bool :=
  (uriUnescaped c && negb (extra_reserved c)) || (c =? 37).

(** Text the encoder accepts: code units, no unpaired surrogate. *)
Definition text (s : jsstring) : Prop := Forall is_code_unit s ∧ well_formed s = true.

(** [String(n)] for a safe integer [n] (of magnitude at most [2^53 - 1],
    which a Number holds exactly and prints in full; from [1e21] on
    JavaScript prints an exponent, which this does not follow).  It stands
    for the parameter of [encodeQuery] in the examples only. *)
Definition integer_toString (n : Z) : jsstring :=
  (if n <? 0 then js "-" else [])
  ++ decimal (Z.to_nat (Z.log2 (Z.abs n)) + 1) (Z.abs n).

Definition is_ascii (c : Z) : Prop := 0 <= c < 128.

(** The components of a URL object are text: the names and values of
    [searchParams] have no unpaired surrogate, and [hash] is ASCII (the
    parser percent-encodes everything else). *)
Definition URL_text (urlObj : URL) : Prop :=
  Forall (λ kv, well_formed kv.1 = true ∧ well_formed kv.2 = true) (searchParams urlObj)
  ∧ Forall is_ascii (hash urlObj).

(** [protocol//host] and [pathname] as the URL object gives them. *)
Definition URL_base (urlObj : URL) : jsstring :=
  protocol urlObj ++ js "//" ++ host urlObj ++ pathname urlObj.

(** The fragment [encodeUrl] writes for a raw fragment: the encoding of
    its percent-decoding, or of itself when that fails. *)
Definition reencoded_fragment (raw h : jsstring) : Prop :=
  match decodeURIComponent raw with
  | Returns decoded => encode (VString decoded) default_encode = Returns h
  | Throws _ => encode (VString raw) default_encode = Returns h
  end.

(** [s.startsWith(p)] and [s.includes(needle)] *)
Fixpoint starts_with (s p : jsstring) : bool :=
  match p, s with
  | [], _ => true
  | c :: p', d :: s' => (c =? d) && starts_with s' p'
  | _ :: _, [] => false
  end.

Fixpoint String_includes (s needle : jsstring) : bool :=
  starts_with s needle
  || match s with [] => false | _ :: s' => String_includes s' needle end.

(** One field [key=value] of [encodeQuery] and what [decodeQuery] makes of it. *)
Definition field_of {number : Type} (Number_toString : number → jsstring)
    (kv : jsstring * query_value number) (field : jsstring) : Prop :=
  ∃ ek ev, field = ek ++ js "=" ++ ev
    ∧ Forall (λ c, field_char c = true) ek
    ∧ Forall (λ c, field_char c = true) ev
    ∧ decode_text default_decode ek = kv.1
    ∧ decode_text default_decode ev = String_ Number_toString kv.2.

(** [s.replace(/ /g, '+')]: what a decoder that does not read ['+'] as a
    space makes of the spaces of a form-encoded text. *)
Definition space_to_plus (s : jsstring) : jsstring := replace_char 32 [43] s.

(** No ['&'], ['='] or ['?']: what keeps a field of a query string apart
    from the separators. *)
Definition reserved_free (s : jsstring) : Prop :=
  Forall (λ c, c ≠ 38 ∧ c ≠ 61 ∧ c ≠ 63) s.

(** Options under which [decode] undoes [encode] on text, the result of
    [encode] holding none of the separators of a query string. *)
Definition inverse_options (eopts : EncodeOptions) (dopts : DecodeOptions) : Prop :=
  ∀ t e, text t → encode (VString t) eopts = Returns e →
         reserved_free e ∧ decode_text dopts e = t.

(** One field [key=value] written under [eopts] and read under [dopts]. *)
Definition field_under {number : Type} (Number_toString : number → jsstring)
    (dopts : DecodeOptions) (kv : jsstring * query_value number) (field : jsstring)
  : Prop :=
  ∃ ek ev, field = ek ++ js "=" ++ ev
    ∧ reserved_free ek ∧ reserved_free ev
    ∧ decode_text dopts ek = kv.1
    ∧ decode_text dopts ev = String_ Number_toString kv.2.

(** * Proofs *)

Ltac zlia := Z.div_mod_to_equations; lia.

(** Settles every [a <? b] of the goal that arithmetic decides. *)
Ltac decide_ltb :=
  repeat match goal with |- context [?a <? ?b] =>
    (replace (a <? b) with true by (symmetry; apply Z.ltb_lt; zlia))
    || (replace (a <? b) with false by (symmetry; apply Z.ltb_ge; zlia))
  end.

Ltac bool_to_prop :=
  repeat match goal with
  | H : _ && _ = true |- _ => apply andb_prop in H; destruct H
  | H : _ || _ = false |- _ => apply orb_false_elim in H; destruct H
  | H : negb _ = true |- _ => apply negb_true_iff in H
  | H : negb _ = false |- _ => apply negb_false_iff in H
  | H : (_ <=? _) = true |- _ => apply Z.leb_le in H
  | H : (_ <=? _) = false |- _ => apply Z.leb_gt in H
  | H : (_ <? _) = true |- _ => apply Z.ltb_lt in H
  | H : (_ <? _) = false |- _ => apply Z.ltb_ge in H
  | H : (_ =? _) = true |- _ => apply Z.eqb_eq in H
  | H : (_ =? _) = false |- _ => apply Z.eqb_neq in H
  end.

(** ** Character classes *)

Lemma between_spec lo hi c : between lo hi c = true ↔ lo <= c <= hi.
Proof. unfold between. rewrite andb_true_iff, !Z.leb_le. lia. Qed.

Lemma between_false lo hi c : between lo hi c = false ↔ c < lo ∨ hi < c.
Proof.
  unfold between. rewrite andb_false_iff, !Z.leb_gt. lia.
Qed.

Lemma uriUnescaped_ascii c : uriUnescaped c = true → 33 <= c <= 126 ∧ c ≠ 37.
Proof.
  unfold uriUnescaped, is_alpha, is_digit, uriMark.
  rewrite !orb_true_iff, !between_spec, bool_decide_eq_true, !elem_of_cons, elem_of_nil.
  lia.
Qed.

(** ** Hexadecimal escapes *)

Lemma hex_value_hex_digit d : 0 <= d < 16 → hex_value (hex_digit d) = Some d.
Proof.
  intros Hd. unfold hex_digit, hex_value, is_digit.
  destruct (d <? 10) eqn:E; bool_to_prop.
  - replace (between 48 57 (48 + d)) with true
      by (symmetry; apply between_spec; lia).
    f_equal. lia.
  - replace (between 48 57 (55 + d)) with false
      by (symmetry; apply between_false; lia).
    replace (between 65 70 (55 + d)) with true
      by (symmetry; apply between_spec; lia).
    f_equal. lia.
Qed.

Lemma ParseHexOctet_percent b rest :
  0 <= b < 256 →
  ParseHexOctet (hex_digit (b / 16) :: hex_digit (b mod 16) :: rest) = Some b.
Proof.
  intros Hb. unfold ParseHexOctet.
  rewrite !hex_value_hex_digit by zlia. simpl. f_equal. zlia.
Qed.

Lemma continuation_octets_percent bs rest :
  Forall (λ b, 0 <= b < 256) bs →
  continuation_octets (length bs) (percent_all bs ++ rest) = Some (bs, rest).
Proof.
  induction 1 as [|b bs Hb _ IH]; [done|].
  change (percent_all (b :: bs)) with (percent b ++ percent_all bs).
  cbn [length continuation_octets percent app].
  rewrite Z.eqb_refl, ParseHexOctet_percent by done.
  cbn [drop mbind option_bind]. rewrite drop_0. by rewrite IH.
Qed.

(** ** UTF-8 and UTF-16 *)

Lemma UTF16Encode_unit c : c <= 0xFFFF → UTF16EncodeCodePoint c = [c].
Proof.
  intros Hc. unfold UTF16EncodeCodePoint.
  by replace (c <=? 0xFFFF) with true by (symmetry; apply Z.leb_le; lia).
Qed.

Lemma UTF16Encode_pair lead trail :
  is_leading_surrogate lead = true → is_trailing_surrogate trail = true →
  UTF16EncodeCodePoint (UTF16SurrogatePairToCodePoint lead trail) = [lead; trail].
Proof.
  unfold is_leading_surrogate, is_trailing_surrogate.
  rewrite !between_spec. intros Hl Ht.
  unfold UTF16EncodeCodePoint, UTF16SurrogatePairToCodePoint.
  replace (_ <=? 0xFFFF) with false by (symmetry; apply Z.leb_gt; lia).
  f_equal; [|f_equal]; zlia.
Qed.

Lemma pair_is_scalar lead trail :
  is_leading_surrogate lead = true → is_trailing_surrogate trail = true →
  is_scalar (UTF16SurrogatePairToCodePoint lead trail)
  ∧ 0x10000 <= UTF16SurrogatePairToCodePoint lead trail.
Proof.
  unfold is_leading_surrogate, is_trailing_surrogate, is_scalar,
    UTF16SurrogatePairToCodePoint.
  rewrite !between_spec. lia.
Qed.

(** One iteration of Decode on a literal code unit. *)
Lemma Decode_literal fuel c rest :
  c ≠ 37 → Decode (S fuel) (c :: rest) = (c ::.) <$> Decode fuel rest.
Proof.
  intros Hc. cbn [Decode].
  by replace (c =? 37) with false by (symmetry; apply Z.eqb_neq; lia).
Qed.

(** One iteration of Decode on the escapes of one scalar value: the
    decoder reads back the code point and writes its UTF-16 form. *)
Lemma Decode_escapes fuel cp rest :
  is_scalar cp →
  Decode (S fuel) (percent_all (utf8_octets cp) ++ rest)
  = (UTF16EncodeCodePoint cp ++.) <$> Decode fuel rest.
Proof.
  intros [Hr Hs]. unfold utf8_octets.
  destruct (cp <? 0x80) eqn:E1; [|destruct (cp <? 0x800) eqn:E2;
    [|destruct (cp <? 0x10000) eqn:E3]]; bool_to_prop.
  - change (percent_all [cp] ++ rest) with (percent cp ++ rest).
    cbn [Decode percent app]. rewrite Z.eqb_refl, ParseHexOctet_percent by lia.
    unfold leading_ones.
    replace (cp <? 0x80) with true by (symmetry; apply Z.ltb_lt; lia).
    cbn [drop]. rewrite drop_0, UTF16Encode_unit by lia. done.
  - set (b0 := 0xC0 + cp / 64). set (b1 := 0x80 + cp mod 64).
    change (percent_all [b0; b1] ++ rest)
      with (percent b0 ++ percent_all [b1] ++ rest).
    cbn [Decode percent app]. rewrite Z.eqb_refl, ParseHexOctet_percent by (unfold b0; zlia).
    assert (leading_ones b0 = 2%nat) as ->.
    { unfold leading_ones, b0.
      decide_ltb.
      done. }
    cbn [drop]. rewrite drop_0.
    rewrite (continuation_octets_percent [b1])
      by (repeat constructor; unfold b1; zlia).
    assert (utf8_code_point [b0; b1] = Some cp) as ->; [|done].
    unfold utf8_code_point, is_continuation.
    replace (between 128 191 b1) with true
      by (symmetry; apply between_spec; unfold b1; zlia).
    assert ((b0 - 192) * 64 + (b1 - 128) = cp) as -> by (unfold b0, b1; zlia).
    by replace (128 <=? cp) with true by (symmetry; apply Z.leb_le; lia).
  - set (b0 := 0xE0 + cp / 4096). set (b1 := 0x80 + (cp / 64) mod 64).
    set (b2 := 0x80 + cp mod 64).
    change (percent_all [b0; b1; b2] ++ rest)
      with (percent b0 ++ percent_all [b1; b2] ++ rest).
    cbn [Decode percent app]. rewrite Z.eqb_refl, ParseHexOctet_percent by (unfold b0; zlia).
    assert (leading_ones b0 = 3%nat) as ->.
    { unfold leading_ones, b0.
      decide_ltb.
      done. }
    cbn [drop]. rewrite drop_0.
    rewrite (continuation_octets_percent [b1; b2])
      by (repeat constructor; unfold b1, b2; zlia).
    assert (utf8_code_point [b0; b1; b2] = Some cp) as ->; [|done].
    unfold utf8_code_point, is_continuation.
    replace (between 128 191 b1) with true
      by (symmetry; apply between_spec; unfold b1; zlia).
    replace (between 128 191 b2) with true
      by (symmetry; apply between_spec; unfold b2; zlia).
    assert ((b0 - 224) * 4096 + (b1 - 128) * 64 + (b2 - 128) = cp) as ->
      by (unfold b0, b1, b2; zlia).
    replace (2048 <=? cp) with true by (symmetry; apply Z.leb_le; lia).
    replace (between 55296 57343 cp) with false
      by (symmetry; apply between_false; lia).
    done.
  - set (b0 := 0xF0 + cp / 262144). set (b1 := 0x80 + (cp / 4096) mod 64).
    set (b2 := 0x80 + (cp / 64) mod 64). set (b3 := 0x80 + cp mod 64).
    change (percent_all [b0; b1; b2; b3] ++ rest)
      with (percent b0 ++ percent_all [b1; b2; b3] ++ rest).
    cbn [Decode percent app]. rewrite Z.eqb_refl, ParseHexOctet_percent by (unfold b0; zlia).
    assert (leading_ones b0 = 4%nat) as ->.
    { unfold leading_ones, b0.
      decide_ltb.
      done. }
    cbn [drop]. rewrite drop_0.
    rewrite (continuation_octets_percent [b1; b2; b3])
      by (repeat constructor; unfold b1, b2, b3; zlia).
    assert (utf8_code_point [b0; b1; b2; b3] = Some cp) as ->; [|done].
    unfold utf8_code_point, is_continuation.
    replace (between 128 191 b1) with true
      by (symmetry; apply between_spec; unfold b1; zlia).
    replace (between 128 191 b2) with true
      by (symmetry; apply between_spec; unfold b2; zlia).
    replace (between 128 191 b3) with true
      by (symmetry; apply between_spec; unfold b3; zlia).
    assert ((b0 - 240) * 262144 + (b1 - 128) * 4096 + (b2 - 128) * 64
            + (b3 - 128) = cp) as -> by (unfold b0, b1, b2, b3; zlia).
    replace (between 65536 1114111 cp) with true
      by (symmetry; apply between_spec; lia).
    done.
Qed.

Lemma utf8_octets_range cp :
  is_scalar cp → Forall (λ b, 0 <= b < 256) (utf8_octets cp).
Proof.
  intros [Hr Hs]. unfold utf8_octets.
  repeat case_match; bool_to_prop; repeat constructor; zlia.
Qed.

(** ** The five extra replacements *)

Lemma replace_char_app c by_ s1 s2 :
  replace_char c by_ (s1 ++ s2) = replace_char c by_ s1 ++ replace_char c by_ s2.
Proof. unfold replace_char. apply bind_app. Qed.

Lemma rfc3986_app s1 s2 : rfc3986 (s1 ++ s2) = rfc3986 s1 ++ rfc3986 s2.
Proof. unfold rfc3986. by rewrite !replace_char_app. Qed.

Lemma replace_char_id c by_ s : c ∉ s → replace_char c by_ s = s.
Proof.
  induction s as [|x s IH]; [done|]. intros Hc.
  apply not_elem_of_cons in Hc as [Hx Hs]. unfold replace_char in *.
  cbn [mbind list_bind]. rewrite IH by done.
  by replace (x =? c) with false by (symmetry; apply Z.eqb_neq; congruence).
Qed.

Lemma rfc3986_id s : Forall (λ c, extra_reserved c = false) s → rfc3986 s = s.
Proof.
  intros Hs. unfold rfc3986.
  assert (∀ c, extra_reserved c = true → c ∉ s) as Hnot.
  { intros c Hc Hin. eapply Forall_forall in Hs; [|exact Hin]. congruence. }
  rewrite (replace_char_id 33), (replace_char_id 39), (replace_char_id 40),
    (replace_char_id 41), (replace_char_id 42) by by apply Hnot.
  done.
Qed.

Lemma rfc3986_extra c :
  extra_reserved c = true → rfc3986 [c] = percent_all (utf8_octets c).
Proof.
  unfold extra_reserved. rewrite bool_decide_eq_true, !elem_of_cons, elem_of_nil.
  intros [->|[->|[->|[->|[->|[]]]]]]; reflexivity.
Qed.

Lemma hex_digit_plain d : 0 <= d < 16 → extra_reserved (hex_digit d) = false.
Proof.
  intros Hd. unfold extra_reserved, hex_digit.
  rewrite bool_decide_eq_false, !elem_of_cons, elem_of_nil.
  case_match; bool_to_prop; lia.
Qed.

Lemma rfc3986_percent_all bs :
  Forall (λ b, 0 <= b < 256) bs → rfc3986 (percent_all bs) = percent_all bs.
Proof.
  intros Hbs. apply rfc3986_id. induction Hbs as [|b bs Hb _ IH]; [constructor|].
  change (percent_all (b :: bs)) with (percent b ++ percent_all bs).
  apply Forall_app; split; [|done].
  unfold percent. repeat apply Forall_cons_2; [done|apply hex_digit_plain; zlia..|constructor].
Qed.

(** ** Induction over the code points of a well-formed string *)

Lemma well_formed_ind (P : jsstring → Prop) :
  P [] →
  (∀ c rest,
     is_leading_surrogate c = false → is_trailing_surrogate c = false →
     well_formed rest = true → P rest → P (c :: rest)) →
  (∀ c c2 rest,
     is_leading_surrogate c = true → is_trailing_surrogate c2 = true →
     well_formed rest = true → P rest → P (c :: c2 :: rest)) →
  ∀ s, well_formed s = true → P s.
Proof.
  intros Hnil Hunit Hpair s.
  induction s as [s IH] using (induction_ltof1 _ length). unfold ltof in IH.
  destruct s as [|c rest]; [done|]. cbn [well_formed].
  destruct (is_leading_surrogate c) eqn:Hl.
  - destruct rest as [|c2 rest]; [done|]. intros [Ht Hw]%andb_prop.
    apply Hpair; [done..|]. apply IH; [cbn [length]; lia|done].
  - destruct (is_trailing_surrogate c) eqn:Ht; [done|]. intros Hw.
    apply Hunit; [done..|]. apply IH; [cbn [length]; lia|done].
Qed.

(** ** Round trip of the baseline primitives with the extra replacements *)

Lemma unit_is_scalar c :
  is_code_unit c → is_leading_surrogate c = false →
  is_trailing_surrogate c = false → is_scalar c ∧ c <= 0xFFFF.
Proof.
  unfold is_code_unit, is_leading_surrogate, is_trailing_surrogate, is_scalar.
  rewrite !between_false. lia.
Qed.

Lemma percent_all_length bs : (length (percent_all bs) = 3 * length bs)%nat.
Proof.
  induction bs as [|b bs IH]; [done|].
  change (percent_all (b :: bs)) with (percent b ++ percent_all bs).
  rewrite length_app, IH. cbn [percent length]. lia.
Qed.

Lemma utf8_octets_nonempty cp : (0 < length (utf8_octets cp))%nat.
Proof. unfold utf8_octets. repeat case_match; cbn [length]; lia. Qed.

Lemma Decode_rfc3986_escapes fuel cp e :
  is_scalar cp →
  (length (rfc3986 (percent_all (utf8_octets cp) ++ e)) <= fuel)%nat →
  ∃ fuel', (length (rfc3986 e) <= fuel')%nat ∧
    Decode fuel (rfc3986 (percent_all (utf8_octets cp) ++ e))
    = (UTF16EncodeCodePoint cp ++.) <$> Decode fuel' (rfc3986 e).
Proof.
  intros Hcp. rewrite rfc3986_app, rfc3986_percent_all by by apply utf8_octets_range.
  rewrite length_app, percent_all_length. pose proof (utf8_octets_nonempty cp).
  destruct fuel as [|fuel]; [lia|]. intros Hlen. exists fuel. split; [lia|].
  by apply Decode_escapes.
Qed.

Lemma roundtrip_primitives t :
  Forall is_code_unit t → well_formed t = true →
  ∃ e, encodeURIComponent t = Returns e ∧
    ∀ fuel, (length (rfc3986 e) <= fuel)%nat → Decode fuel (rfc3986 e) = Returns t.
Proof.
  intros Hu Hw. revert Hu. pattern t. revert t Hw. apply well_formed_ind.
  - intros _. exists []. split; [done|]. by intros [|fuel] _.
  - intros c rest Hl Ht _ IH [Hc Hrest]%Forall_cons.
    destruct (IH Hrest) as (e & He & Hdec). clear IH.
    destruct (unit_is_scalar c Hc Hl Ht) as [Hs Hbmp].
    cbn [encodeURIComponent]. rewrite Hl, Ht, He.
    destruct (uriUnescaped c) eqn:Hun.
    + exists (c :: e). split; [done|]. intros fuel.
      change (c :: e) with ([c] ++ e).
      destruct (extra_reserved c) eqn:Hx.
      * rewrite rfc3986_app, rfc3986_extra, <- (rfc3986_percent_all (utf8_octets c)),
          <- rfc3986_app by (done || by apply utf8_octets_range).
        intros Hlen. destruct (Decode_rfc3986_escapes _ _ _ Hs Hlen) as (f' & Hf' & ->).
        by rewrite (Hdec _ Hf'), UTF16Encode_unit.
      * rewrite rfc3986_app, (rfc3986_id [c]) by by repeat constructor.
        destruct fuel as [|fuel]; [cbn [app length]; lia|]. cbn [app length]. intros Hlen.
        rewrite Decode_literal by (apply uriUnescaped_ascii in Hun; lia).
        by rewrite Hdec by lia.
    + exists (percent_all (utf8_octets c) ++ e). split; [done|]. intros fuel Hlen.
      destruct (Decode_rfc3986_escapes _ _ _ Hs Hlen) as (f' & Hf' & ->).
      by rewrite (Hdec _ Hf'), UTF16Encode_unit.
  - intros c c2 rest Hl Ht _ IH (Hc & (Hc2 & Hrest)%Forall_cons)%Forall_cons.
    destruct (IH Hrest) as (e & He & Hdec). clear IH.
    destruct (pair_is_scalar c c2 Hl Ht) as [Hs _].
    cbn [encodeURIComponent]. rewrite Hl, Ht, He.
    replace (uriUnescaped c) with false.
    2:{ symmetry. apply not_true_is_false. intros [? ?]%uriUnescaped_ascii.
        apply between_spec in Hl. lia. }
    eexists. split; [done|]. intros fuel Hlen.
    destruct (Decode_rfc3986_escapes _ _ _ Hs Hlen) as (f' & Hf' & ->).
    by rewrite (Hdec _ Hf'), UTF16Encode_pair.
Qed.

(** ** The expectations of the repository's tests, evaluated *)

Example test_encode_ascii :
  encode (VString (js "Hello World")) default_encode = Returns (js "Hello%20World")
  ∧ encode (VString (js "test@example.com")) default_encode
    = Returns (js "test%40example.com")
  ∧ encode (VString (js "100% sure!")) default_encode = Returns (js "100%25%20sure%21")
  ∧ encode (VString (js "Hello+World")) default_encode = Returns (js "Hello%2BWorld")
  ∧ encode (VString (js "it's working")) default_encode = Returns (js "it%27s%20working")
  ∧ encode (VString (js "(parentheses)")) default_encode = Returns (js "%28parentheses%29")
  ∧ encode (VString (js "asterisk*here")) default_encode = Returns (js "asterisk%2Ahere")
  ∧ encode (VString (js "{}[]")) default_encode = Returns (js "%7B%7D%5B%5D")
  ∧ encode (VString (js "path/to/file")) default_encode = Returns (js "path%2Fto%2Ffile")
  ∧ encode (VString []) default_encode = Returns [].
Proof. split_and!; reflexivity. Qed.

(** ['你好世界'] and the emoji U+1F389, a surrogate pair. *)
Example test_encode_unicode :
  encode (VString [0x4F60; 0x597D; 0x4E16; 0x754C]) default_encode
    = Returns (js "%E4%BD%A0%E5%A5%BD%E4%B8%96%E7%95%8C")
  ∧ encode (VString [0xD83C; 0xDF89]) default_encode = Returns (js "%F0%9F%8E%89")
  ∧ decode (VString (js "%E4%BD%A0%E5%A5%BD%E4%B8%96%E7%95%8C")) default_decode
    = Returns [0x4F60; 0x597D; 0x4E16; 0x754C]
  ∧ decode (VString (js "%F0%9F%8E%89")) default_decode = Returns [0xD83C; 0xDF89].
Proof. split_and!; reflexivity. Qed.

Example test_encode_options :
  encode (VString (js "Hello World"))
    {| plusForSpace := true; strict := false; allowedChars := [] |}
    = Returns (js "Hello+World")
  ∧ encode (VString (js "Hello-World_123")) strict_only = Returns (js "Hello-World_123")
  ∧ encode (VString (js "Hello World!")) strict_only = Returns (js "Hello%20World%21")
  ∧ encode (VNumber 123) default_encode = Throws TypeError
  ∧ encode VNull default_encode = Throws TypeError
  ∧ encode VUndefined default_encode = Throws TypeError.
Proof. split_and!; reflexivity. Qed.

Example test_decode :
  decode (VString (js "Hello%20World")) default_decode = Returns (js "Hello World")
  ∧ decode (VString (js "100%25%20sure%21")) default_decode = Returns (js "100% sure!")
  ∧ decode (VString (js "Hello+World")) {| plusAsSpace := true |}
    = Returns (js "Hello World")
  ∧ decode (VString (js "Hello+World")) default_decode = Returns (js "Hello+World")
  ∧ decode (VString (js "Hello%2")) default_decode = Returns (js "Hello%2")
  ∧ decode (VString (js "test%")) default_decode = Returns (js "test%")
  ∧ decode (VNumber 123) default_decode = Throws TypeError
  ∧ decode VNull default_decode = Throws TypeError.
Proof. split_and!; reflexivity. Qed.

Example test_query :
  encodeQuery integer_toString
    [(js "name", QString (js "John Doe")); (js "email", QString (js "test@example.com"))]
    default_encode
    = Returns (js "name=John%20Doe&email=test%40example.com")
  ∧ encodeQuery integer_toString
      [(js "age", QNumber 25); (js "active", QBoolean true)] default_encode
    = Returns (js "age=25&active=true")
  ∧ encodeQuery integer_toString [] default_encode = Returns []
  ∧ encodeQuery integer_toString [(js "text", QString (js "Hello World"))]
      {| plusForSpace := true; strict := false; allowedChars := [] |}
    = Returns (js "text=Hello+World")
  ∧ decodeQuery (js "?name=John&age=25") default_decode
    = Returns {[ js "name" := js "John"; js "age" := js "25" ]}
  ∧ decodeQuery (js "text=Hello+World") {| plusAsSpace := true |}
    = Returns {[ js "text" := js "Hello World" ]}.
Proof. split_and!; vm_compute; reflexivity. Qed.

Example test_new_URL :
  WHATWG.new_URL (js "https://example.com:8080/path/to/resource")
    = Some (Returns {| protocol := js "https:"; host := js "example.com:8080";
                       pathname := js "/path/to/resource";
                       searchParams := []; hash := [] |})
  ∧ WHATWG.new_URL (js "https://example.com/path?name=John Doe&email=test@example.com")
    = Some (Returns {| protocol := js "https:"; host := js "example.com";
                       pathname := js "/path";
                       searchParams := [(js "name", js "John Doe");
                                        (js "email", js "test@example.com")];
                       hash := [] |})
  ∧ WHATWG.new_URL (js "https://example.com/page#section name")
    = Some (Returns {| protocol := js "https:"; host := js "example.com";
                       pathname := js "/page"; searchParams := [];
                       hash := js "#section%20name" |})
  ∧ WHATWG.new_URL (js "Hello World") = Some (Throws TypeError)
  ∧ WHATWG.new_URL (js "https://") = Some (Throws TypeError)
  ∧ WHATWG.new_URL (js "https://example.com:99999/") = Some (Throws TypeError)
  ∧ WHATWG.new_URL (js "mailto:someone@example.com") = None
  ∧ WHATWG.new_URL (js "https://user@example.com/") = None
  ∧ WHATWG.new_URL (js "https://127.0.0.1/") = None
  ∧ WHATWG.new_URL (js "https://example.com/a/../b") = None.
Proof. split_and!; vm_compute; reflexivity. Qed.

Example test_encodeUrl :
  encodeUrl WHATWG.new_URL
    (VString (js "https://example.com/path?name=John Doe&email=test@example.com"))
    = Some (Returns (js "https://example.com/path?name=John%20Doe&email=test%40example.com"))
  ∧ encodeUrl WHATWG.new_URL (VString (js "Hello World"))
    = Some (Returns (js "Hello%20World"))
  ∧ encodeUrl WHATWG.new_URL (VNumber 123) = Some (Throws TypeError).
Proof. split_and!; vm_compute; reflexivity. Qed.

(** ** C1 *)

Lemma decodeURIComponent_rfc3986 t e :
  Forall is_code_unit t → well_formed t = true →
  encodeURIComponent t = Returns e → decodeURIComponent (rfc3986 e) = Returns t.
Proof.
  intros Hu Hw He. destruct (roundtrip_primitives t Hu Hw) as (e' & He' & Hdec).
  rewrite He in He'. injection He' as <-. by apply Hdec.
Qed.

(** C1: for every string [t] of code units with no unpaired surrogate,
    [encode(t)] under the default options returns some [e], and
    [decode(e)] under the default options returns [t]. *)
Theorem C1_decode_encode (t : jsstring) :
  Forall is_code_unit t → well_formed t = true →
  ∃ e, encode (VString t) default_encode = Returns e
       ∧ decode (VString e) default_decode = Returns t.
Proof.
  intros Hu Hw. destruct (roundtrip_primitives t Hu Hw) as (e & He & Hdec).
  exists (rfc3986 e). split.
  - cbn [encode default_encode strict plusForSpace]. by rewrite He.
  - cbn [decode default_decode plusAsSpace]. unfold decodeURIComponent.
    by rewrite Hdec.
Qed.

Lemma C1_decode_encode_witness :
  ∃ e, encode (VString (js "a b!" ++ [0x4F60; 0xD83C; 0xDF89])) default_encode = Returns e
       ∧ decode (VString e) default_decode = Returns (js "a b!" ++ [0x4F60; 0xD83C; 0xDF89]).
Proof.
  apply (C1_decode_encode (js "a b!" ++ [0x4F60; 0xD83C; 0xDF89])).
  - repeat constructor; unfold is_code_unit; lia.
  - reflexivity.
Defined.

(** ** C2 *)

(** C2: in strict mode with no allowed characters the code leaves ['.']
    and ['~'] as they are: [encode('Hello.World!', {strict: true})] is
    ['Hello.World%21'] (the documentation promises ['Hello%2EWorld%21']),
    and [encode('~', {strict: true})] is ['~']. *)
Theorem C2_strict_keeps_dot_and_tilde :
  encode (VString (js "Hello.World!")) strict_only = Returns (js "Hello.World%21")
  ∧ encode (VString (js "~")) strict_only = Returns (js "~")
  ∧ strict_class 46 = false ∧ strict_class 126 = false.
Proof. repeat split; reflexivity. Qed.

(** ** C3 *)

(** C3: without [strict] the code never reads [allowedChars]: the result
    is the same for every list of allowed characters, so
    [encode('a@b', {allowedChars: ['@']})] is ['a%40b'], while the strict
    branch does keep the ['@']. *)
Theorem C3_allowedChars_ignored_by_default :
  (∀ (t : value) (plus : bool) (allowed : list jsstring),
     encode t {| plusForSpace := plus; strict := false; allowedChars := allowed |}
     = encode t {| plusForSpace := plus; strict := false; allowedChars := [] |})
  ∧ encode (VString (js "a@b"))
      {| plusForSpace := false; strict := false; allowedChars := [js "@"] |}
    = Returns (js "a%40b")
  ∧ encode (VString (js "a@b"))
      {| plusForSpace := false; strict := true; allowedChars := [js "@"] |}
    = Returns (js "a@b").
Proof. repeat split; reflexivity. Qed.

(** ** C4 *)

Lemma ParseHexOctet_Some s b :
  ParseHexOctet s = Some b →
  ∃ h1 h2 rest, s = h1 :: h2 :: rest ∧ h1 ≠ 37 ∧ h2 ≠ 37.
Proof.
  destruct s as [|h1 [|h2 rest]]; [done..|]. cbn [ParseHexOctet].
  destruct (hex_value h1) eqn:H1; [|done]. destruct (hex_value h2) eqn:H2; [|done].
  intros _. exists h1, h2, rest. split_and!; [done|..]; intros ->; done.
Qed.

Lemma malformed_escape_literal c rest :
  c ≠ 37 → malformed_escape (c :: rest) → malformed_escape rest.
Proof.
  intros Hc (pre & post & Heq & Hpost). destruct pre as [|c' pre].
  - injection Heq as -> _. done.
  - injection Heq as _ ->. by exists pre, post.
Qed.

(** A well-formed escape at the start does not hide a malformed one. *)
Lemma malformed_escape_skip rest b :
  ParseHexOctet rest = Some b → malformed_escape (37 :: rest) →
  malformed_escape (drop 2 rest).
Proof.
  intros Hb (pre & post & Heq & Hpost). destruct pre as [|c pre].
  - injection Heq as ->. congruence.
  - injection Heq as _ ->.
    apply ParseHexOctet_Some in Hb as (h1 & h2 & r & Hr & H1 & H2).
    destruct pre as [|x [|y pre]]; cbn [app] in Hr.
    + injection Hr as <-. done.
    + injection Hr as _ <-. done.
    + injection Hr as _ _ <-. cbn [app drop]. rewrite drop_0. by exists pre, post.
Qed.

Lemma malformed_escape_continuation j s octets rest :
  continuation_octets j s = Some (octets, rest) →
  malformed_escape s → malformed_escape rest.
Proof.
  revert s octets rest. induction j as [|j IH]; intros s octets rest.
  - by intros [= _ <-].
  - cbn [continuation_octets]. destruct s as [|c s]; [done|].
    destruct (c =? 37) eqn:Hc; [|done]. apply Z.eqb_eq in Hc as ->.
    destruct (ParseHexOctet s) as [b|] eqn:Hb; [|done]. cbn [mbind option_bind].
    destruct (continuation_octets j (drop 2 s)) as [[o r]|] eqn:Hcont; [|done].
    intros [= _ <-] Hs. eapply IH; [exact Hcont|].
    by eapply malformed_escape_skip.
Qed.

Lemma continuation_octets_length j s octets rest :
  continuation_octets j s = Some (octets, rest) → (length rest <= length s)%nat.
Proof.
  revert s octets rest. induction j as [|j IH]; intros s octets rest.
  - by intros [= _ <-].
  - cbn [continuation_octets]. destruct s as [|c s]; [done|].
    destruct (c =? 37); [|done]. destruct (ParseHexOctet s); [|done].
    cbn [mbind option_bind].
    destruct (continuation_octets j (drop 2 s)) as [[o r]|] eqn:Hc; [|done].
    intros [= _ <-]. apply IH in Hc. rewrite length_drop in Hc. cbn [length]. lia.
Qed.

(** [decodeURIComponent] throws on every string with a malformed escape. *)
Lemma Decode_malformed_escape fuel s :
  (length s <= fuel)%nat → malformed_escape s → Decode fuel s = Throws URIError.
Proof.
  revert s. induction fuel as [|fuel IH]; intros s Hlen Hs.
  { destruct s; [|cbn [length] in Hlen; lia].
    destruct Hs as (pre & post & Heq & _). by destruct pre. }
  destruct s as [|c rest].
  { destruct Hs as (pre & post & Heq & _). by destruct pre. }
  cbn [length] in Hlen. cbn [Decode].
  destruct (c =? 37) eqn:Hc; bool_to_prop.
  - subst c. destruct (ParseHexOctet rest) as [b|] eqn:Hb; [|done].
    pose proof (malformed_escape_skip rest b Hb Hs) as Hrest2.
    destruct (leading_ones b) as [|[|n]]; [|done|].
    + rewrite IH; [done| |done]. rewrite length_drop. lia.
    + destruct n as [|[|[|n]]]; [..|done];
        (destruct (continuation_octets _ _) as [[octets rest3]|] eqn:Hc3; [|done];
         destruct (utf8_code_point _); [|done];
         rewrite IH; [done| |by eapply malformed_escape_continuation];
         apply continuation_octets_length in Hc3; rewrite length_drop in Hc3; lia).
  - rewrite IH; [done|lia|]. by eapply malformed_escape_literal.
Qed.

Lemma plus_to_space_cons c s :
  plus_to_space (c :: s) = (if c =? 43 then 32 else c) :: plus_to_space s.
Proof. unfold plus_to_space, replace_char. cbn [mbind list_bind]. by destruct (c =? 43). Qed.

Lemma hex_value_plus_to_space c :
  hex_value (if c =? 43 then 32 else c) = hex_value c.
Proof. destruct (c =? 43) eqn:Hc; [|done]. by apply Z.eqb_eq in Hc as ->. Qed.

Lemma malformed_escape_plus_to_space s :
  malformed_escape s → malformed_escape (plus_to_space s).
Proof.
  intros (pre & post & -> & Hpost).
  exists (plus_to_space pre), (plus_to_space post). split.
  - unfold plus_to_space. by rewrite replace_char_app.
  - destruct post as [|h1 [|h2 post]]; rewrite ?plus_to_space_cons; [done..|].
    cbn [ParseHexOctet] in *.
    by rewrite !hex_value_plus_to_space.
Qed.

(** Whenever percent-unescaping fails, [decode] returns its argument. *)
Lemma decode_fallback s options e :
  decodeURIComponent (plus_substituted options s) = Throws e →
  decode (VString s) options = Returns s.
Proof.
  unfold plus_substituted. intros H. cbn [decode]. by rewrite H.
Qed.

(** C4, as the code has it: on a string with a malformed percent escape,
    percent-unescaping fails (with or without the plus substitution) and
    [decode] returns, without raising, the string it was given, whatever
    [plusAsSpace] says. *)
Theorem C4_decode_fallback (s : jsstring) (options : DecodeOptions) :
  malformed_escape s →
  decodeURIComponent (plus_substituted options s) = Throws URIError
  ∧ decode (VString s) options = Returns s.
Proof.
  intros Hs.
  assert (decodeURIComponent (plus_substituted options s) = Throws URIError) as H.
  { apply Decode_malformed_escape; [done|]. unfold plus_substituted.
    destruct (plusAsSpace options); [by apply malformed_escape_plus_to_space|done]. }
  split; [done|]. by eapply decode_fallback.
Qed.

Lemma C4_decode_fallback_witness :
  decodeURIComponent (plus_substituted default_decode (js "Hello%2")) = Throws URIError
  ∧ decode (VString (js "Hello%2")) default_decode = Returns (js "Hello%2").
Proof.
  apply (C4_decode_fallback (js "Hello%2") default_decode).
  exists (js "Hello"), (js "2"). split; reflexivity.
Defined.

(** C4 as stated fails: with [plusAsSpace] the truncated escape in
    ['a+b%2'] makes [decode] return ['a+b%2'], not ['a b%2']. *)
Lemma C4_counterexample :
  decodeURIComponent (plus_substituted {| plusAsSpace := true |} (js "a+b%2"))
    = Throws URIError
  ∧ decode (VString (js "a+b%2")) {| plusAsSpace := true |} = Returns (js "a+b%2")
  ∧ plus_to_space (js "a+b%2") = js "a b%2"
  ∧ decode (VString (js "a+b%2")) {| plusAsSpace := true |}
    ≠ Returns (plus_to_space (js "a+b%2")).
Proof. repeat split; [reflexivity..|discriminate]. Qed.

(** ** C5 *)

(** [encodeURIComponent] returns exactly on the strings with no unpaired
    surrogate, and throws nothing but a URIError. *)
Lemma encodeURIComponent_well_formed s :
  match encodeURIComponent s with
  | Returns _ => well_formed s = true
  | Throws e => e = URIError ∧ well_formed s = false
  end.
Proof.
  induction s as [s IH] using (induction_ltof1 _ length). unfold ltof in IH.
  destruct s as [|c rest]; [done|]. cbn [encodeURIComponent well_formed].
  destruct (uriUnescaped c) eqn:Hun.
  - apply uriUnescaped_ascii in Hun.
    replace (is_leading_surrogate c) with false
      by (symmetry; apply between_false; lia).
    replace (is_trailing_surrogate c) with false
      by (symmetry; apply between_false; lia).
    specialize (IH rest). destruct (encodeURIComponent rest); apply IH; cbn [length]; lia.
  - destruct (is_leading_surrogate c).
    + destruct rest as [|c2 rest]; [done|].
      destruct (is_trailing_surrogate c2); [|done]. cbn [andb].
      specialize (IH rest).
      destruct (encodeURIComponent rest); apply IH; cbn [length]; lia.
    + destruct (is_trailing_surrogate c); [done|].
      specialize (IH rest).
      destruct (encodeURIComponent rest); apply IH; cbn [length]; lia.
Qed.

Lemma encodeURIComponent_returns s :
  well_formed s = true → returns (encodeURIComponent s).
Proof.
  intros Hw. pose proof (encodeURIComponent_well_formed s) as H.
  destruct (encodeURIComponent s) as [e|e]; [by exists e|].
  destruct H. congruence.
Qed.

Lemma encodeURIComponent_throws s :
  well_formed s = false → encodeURIComponent s = Throws URIError.
Proof.
  intros Hw. pose proof (encodeURIComponent_well_formed s) as H.
  destruct (encodeURIComponent s) as [e|e]; [congruence|].
  by destruct H as [-> _].
Qed.

Lemma mapM_cons {A B} (f : A → completion B) x l :
  mapM f (x :: l) = y ← f x; k ← mapM f l; mret (y :: k).
Proof. done. Qed.

Lemma mapM_returns {A B} (f : A → completion B) l :
  Forall (λ x, returns (f x)) l → returns (mapM f l).
Proof.
  induction 1 as [|x l [y Hy] _ [k Hk]]; [by exists []|].
  exists (y :: k). by rewrite mapM_cons, Hy, Hk.
Qed.

Lemma strict_char_returns allowed char :
  well_formed char = true → returns (strict_char allowed char).
Proof.
  intros Hw. unfold strict_char. case_match; [by eexists|].
  destruct (encodeURIComponent_returns char Hw) as [e ->]. by eexists.
Qed.

Lemma Array_from_well_formed s :
  well_formed s = true → Forall (λ char, well_formed char = true) (Array_from s).
Proof.
  revert s. apply well_formed_ind.
  - constructor.
  - intros c rest Hl Ht _ IH. cbn [Array_from]. rewrite Hl.
    constructor; [|done]. cbn [well_formed]. by rewrite Hl, Ht.
  - intros c c2 rest Hl Ht _ IH. cbn [Array_from]. rewrite Hl, Ht.
    constructor; [|done]. cbn [well_formed]. by rewrite Hl, Ht.
Qed.

(** [encode] returns exactly on the strings with no unpaired surrogate,
    under every option. *)
Lemma encode_returns s options :
  well_formed s = true → returns (encode (VString s) options).
Proof.
  intros Hw. cbn [encode].
  destruct (encodeURIComponent_returns s Hw) as [e ->]. cbn [mbind completion_bind].
  destruct (strict options); [|by eexists].
  destruct (mapM_returns (strict_char (allowedChars options)) (Array_from s)) as [k ->].
  - eapply Forall_impl; [by apply Array_from_well_formed|].
    intros char. apply strict_char_returns.
  - by eexists.
Qed.

Lemma encode_throws s options :
  well_formed s = false → encode (VString s) options = Throws URIError.
Proof.
  intros Hw. cbn [encode]. by rewrite encodeURIComponent_throws.
Qed.

Lemma encode_string_cases s options :
  returns (encode (VString s) options) ∨ encode (VString s) options = Throws URIError.
Proof.
  destruct (well_formed s) eqn:Hw; [left; by apply encode_returns|].
  right; by apply encode_throws.
Qed.

Lemma decode_returns s options : returns (decode (VString s) options).
Proof.
  cbn [decode]. destruct (decodeURIComponent _) as [d|e]; by eexists.
Qed.

Lemma encodeUrl_string_cases new_URL s r :
  encodeUrl new_URL (VString s) = Some r →
  (returns r ∨ r = Throws URIError) ∧ (well_formed s = true → returns r).
Proof.
  cbn [encodeUrl]. destruct (new_URL s) as [parsed|]; [|done].
  cbn [mbind option_bind]. intros [= <-].
  match goal with |- context [try_catch ?b _] => destruct b as [out|e] end;
    cbn [try_catch].
  - split; [left|intros _]; by exists out.
  - split; [exact (encode_string_cases s default_encode)
           |exact (encode_returns s default_encode)].
Qed.

(** C5, as the code has it: each of [encode], [decode] and [encodeUrl]
    raises a TypeError exactly when its argument is not a string.  On a
    string [decode] always returns; [encode] returns exactly when the
    string has no unpaired surrogate and raises the URIError of
    [encodeURIComponent] otherwise; and wherever the URL parser answers,
    whatever its answer, [encodeUrl] gives a result that is no TypeError
    and is a value when the string has no unpaired surrogate. *)
Theorem C5_errors (v : value) (eopts : EncodeOptions) (dopts : DecodeOptions)
    (new_URL : jsstring → option (completion URL)) :
  (encode v eopts = Throws TypeError ↔ typeof_is_string v = false)
  ∧ (decode v dopts = Throws TypeError ↔ typeof_is_string v = false)
  ∧ (encodeUrl new_URL v = Some (Throws TypeError) ↔ typeof_is_string v = false)
  ∧ (∀ s, v = VString s →
       returns (decode v dopts)
       ∧ (returns (encode v eopts) ↔ well_formed s = true)
       ∧ (encode v eopts = Throws URIError ↔ well_formed s = false)
       ∧ (∀ parsed, new_URL s = Some parsed →
            ∃ r, encodeUrl new_URL v = Some r
                 ∧ r ≠ Throws TypeError
                 ∧ (returns r ∨ r = Throws URIError)
                 ∧ (well_formed s = true → returns r))).
Proof.
  split_and!.
  - destruct v as [| | | |s|]; try done. cbn [typeof_is_string].
    destruct (encode_string_cases s eopts) as [[e H]|H]; rewrite H; done.
  - destruct v as [| | | |s|]; try done. cbn [typeof_is_string].
    destruct (decode_returns s dopts) as [d H]; rewrite H; done.
  - destruct v as [| | | |s|]; try done. cbn [typeof_is_string].
    split; [|done]. intros Hr.
    by apply encodeUrl_string_cases in Hr as [[[out ?]|?] _].
  - intros s ->. split_and!.
    + apply decode_returns.
    + split; [|apply encode_returns]. intros [e He].
      destruct (well_formed s) eqn:Hw; [done|].
      rewrite encode_throws in He by done. done.
    + split; [|apply encode_throws]. intros He.
      destruct (well_formed s) eqn:Hw; [|done].
      destruct (encode_returns s eopts Hw) as [e' He']. congruence.
    + intros parsed Hparsed.
      assert (∃ r, encodeUrl new_URL (VString s) = Some r) as [r Hr].
      { cbn [encodeUrl]. rewrite Hparsed. cbn [mbind option_bind]. by eexists. }
      exists r. destruct (encodeUrl_string_cases new_URL s r Hr) as [Hcases Hret].
      split_and!; [done| |done..].
      by destruct Hcases as [[out ->]| ->].
Qed.

(** C5 as stated fails: a lone surrogate is a string, and both [encode]
    and [encodeUrl] raise a URIError on it. *)
Lemma C5_counterexample :
  typeof_is_string (VString [0xD800]) = true
  ∧ encode (VString [0xD800]) default_encode = Throws URIError
  ∧ encodeUrl WHATWG.new_URL (VString [0xD800]) = Some (Throws URIError).
Proof. split_and!; vm_compute; reflexivity. Qed.

(** ** C6 *)

Lemma split_unfold sep s :
  split sep s
  = before sep s :: (if bool_decide (sep ∈ s) then split sep (after sep s) else []).
Proof.
  induction s as [|c rest IH]; [done|]. cbn [split before after].
  destruct (c =? sep) eqn:E; bool_to_prop.
  - subst c. rewrite bool_decide_eq_true_2 by left. done.
  - rewrite IH. f_equal. apply (f_equal (λ b : bool, if b then _ else _)).
    apply bool_decide_ext. rewrite elem_of_cons. intuition congruence.
Qed.

Lemma split_lookup_0 sep s : split sep s !! 0%nat = Some (before sep s).
Proof. by rewrite split_unfold. Qed.

Lemma after_not_elem sep s : sep ∉ s → after sep s = [].
Proof.
  induction s as [|c rest IH]; [done|]. intros [Hc Hr]%not_elem_of_cons.
  cbn [after]. replace (c =? sep) with false by (symmetry; apply Z.eqb_neq; congruence).
  by apply IH.
Qed.

Lemma split_lookup_1 sep s :
  default [] (split sep s !! 1%nat) = before sep (after sep s).
Proof.
  rewrite split_unfold. case_bool_decide as Hin.
  - cbn [lookup list_lookup]. by rewrite split_lookup_0.
  - by rewrite after_not_elem.
Qed.

Lemma decode_decode_text s options :
  decode (VString s) options = Returns (decode_text options s).
Proof.
  cbn [decode]. unfold decode_text, plus_substituted.
  by destruct (decodeURIComponent _).
Qed.

Lemma for_of_returns {A S} (g : S → A → S) (body : S → A → completion S) l s :
  (∀ s x, body s x = Returns (g s x)) → for_of body l s = Returns (foldl g s l).
Proof.
  intros Hbody. revert s. induction l as [|x l IH]; intros s; [done|].
  cbn [for_of foldl]. rewrite Hbody. apply IH.
Qed.

Lemma decodeQuery_pairs queryString options :
  decodeQuery queryString options
  = Returns (decode_pairs options (query_pairs queryString)).
Proof.
  unfold decodeQuery, query_pairs, decode_pairs.
  set (clean := match queryString with
                | [] => queryString
                | c :: rest => if c =? 63 then rest else queryString
                end).
  assert (match queryString with
          | [] => []
          | c :: rest => if c =? 63 then rest else queryString
          end = clean) as -> by (by destruct queryString).
  destruct clean as [|c clean]; [done|].
  apply for_of_returns. intros result pair.
  rewrite split_lookup_0. cbn [from_option].
  rewrite split_lookup_1, !decode_decode_text. done.
Qed.

(** X3: [decodeQuery] removes one leading ['?'], returns the empty map on
    an empty rest, splits the rest on ['&'] and each pair on ['=']; the
    key is the text before the first ['='] and the value the text between
    the first and the second ['='] (empty when the pair has no ['=']),
    each decoded, later pairs overwriting earlier ones.  So
    ['key1&key2=value2'] yields [key1] with the empty string. *)
Theorem decodeQuery_pair_by_pair (queryString : jsstring) (options : DecodeOptions) :
  decodeQuery queryString options
  = Returns (foldl (λ result pair,
               object_set result (decode_text options (pair_key pair))
                                 (decode_text options (pair_value pair)))
             ∅ (query_pairs queryString))
  ∧ decodeQuery [] options = Returns ∅
  ∧ decodeQuery (js "?") options = Returns ∅
  ∧ decodeQuery (js "key1&key2=value2") default_decode
    = Returns {[ js "key1" := []; js "key2" := js "value2" ]}.
Proof.
  split; [apply decodeQuery_pairs|repeat split; vm_compute; reflexivity].
Qed.

(** C6: in ['a=b=c'] the text after the first ['='] is ['b=c'], and the
    value [decodeQuery] returns for [a] is ['b']: [pair.split('=')] cuts
    at every ['='] and the text after the second one is dropped.  The
    parser behind [searchParams], which [encodeUrl] relies on, does split
    at the first ['='] only. *)
Theorem C6_value_cut_at_second_equals :
  after 61 (js "a=b=c") = js "b=c"
  ∧ decodeQuery (js "a=b=c") default_decode = Returns {[ js "a" := js "b" ]}
  ∧ decodeQuery (js "a=b=c") default_decode ≠ Returns {[ js "a" := js "b=c" ]}
  ∧ WHATWG.urlencoded_parse (js "a=b=c") = Some [(js "a", js "b=c")].
Proof.
  split_and!; [vm_compute; reflexivity..| |vm_compute; reflexivity].
  intros H. assert (decodeQuery (js "a=b=c") default_decode
                    = Returns {[ js "a" := js "b" ]}) as H' by (vm_compute; reflexivity).
  rewrite H' in H.
  apply (f_equal (λ r : completion (gmap jsstring jsstring),
                    match r with Returns m => m !! js "a" | Throws _ => None end)) in H.
  rewrite !lookup_singleton_eq in H. discriminate.
Qed.

(** ** The alphabet of encoded text *)

Lemma hex_digit_unescaped d : 0 <= d < 16 → uriUnescaped (hex_digit d) = true.
Proof.
  intros Hd. unfold uriUnescaped, hex_digit, is_alpha, is_digit.
  rewrite !orb_true_iff, !between_spec. case_match; bool_to_prop; lia.
Qed.

Lemma percent_all_chars bs :
  Forall (λ b, 0 <= b < 256) bs →
  Forall (λ c, uriUnescaped c = true ∨ c = 37) (percent_all bs).
Proof.
  induction 1 as [|b bs Hb _ IH]; [constructor|].
  change (percent_all (b :: bs)) with (percent b ++ percent_all bs).
  apply Forall_app; split; [|done]. unfold percent.
  repeat apply Forall_cons_2; [by right|left; apply hex_digit_unescaped; zlia..|constructor].
Qed.

Lemma fmap_Returns_inv {A B} (f : A → B) (m : completion A) b :
  f <$> m = Returns b → ∃ a, m = Returns a ∧ b = f a.
Proof. destruct m as [a|e]; [|done]. intros [= <-]. by exists a. Qed.

Lemma encodeURIComponent_chars t e :
  Forall is_code_unit t → encodeURIComponent t = Returns e →
  Forall (λ c, uriUnescaped c = true ∨ c = 37) e.
Proof.
  intros Hu He. assert (well_formed t = true) as Hw.
  { pose proof (encodeURIComponent_well_formed t) as H. by rewrite He in H. }
  revert e Hu He. pattern t. revert t Hw. apply well_formed_ind.
  - intros e _ [= <-]. constructor.
  - intros c rest Hl Ht _ IH e [Hc Hrest]%Forall_cons.
    destruct (unit_is_scalar c Hc Hl Ht) as [Hs _].
    cbn [encodeURIComponent]. rewrite Hl, Ht.
    destruct (uriUnescaped c) eqn:Hun; intros (e' & He' & ->)%fmap_Returns_inv.
    + constructor; [by left|by apply IH].
    + apply Forall_app; split; [|by apply IH].
      by apply percent_all_chars, utf8_octets_range.
  - intros c c2 rest Hl Ht _ IH e (Hc & (Hc2 & Hrest)%Forall_cons)%Forall_cons.
    destruct (pair_is_scalar c c2 Hl Ht) as [Hs _].
    cbn [encodeURIComponent]. rewrite Hl, Ht.
    destruct (uriUnescaped c) eqn:Hun.
    { apply uriUnescaped_ascii in Hun. apply between_spec in Hl. lia. }
    intros (e' & He' & ->)%fmap_Returns_inv.
    apply Forall_app; split; [|by apply IH].
    by apply percent_all_chars, utf8_octets_range.
Qed.

Lemma rfc3986_chars e :
  Forall (λ c, uriUnescaped c = true ∨ c = 37) e →
  Forall (λ c, field_char c = true) (rfc3986 e).
Proof.
  induction 1 as [|c e Hc _ IH]; [constructor|].
  change (c :: e) with ([c] ++ e). rewrite rfc3986_app.
  apply Forall_app; split; [|done].
  destruct (extra_reserved c) eqn:Hx.
  - rewrite rfc3986_extra by done. revert Hx. unfold extra_reserved.
    rewrite bool_decide_eq_true, !elem_of_cons, elem_of_nil.
    intros [->|[->|[->|[->|[->|[]]]]]]; by repeat constructor.
  - rewrite rfc3986_id by by repeat constructor.
    constructor; [|constructor]. unfold field_char. rewrite Hx.
    destruct Hc as [->| ->]; done.
Qed.

Lemma encode_default t :
  encode (VString t) default_encode = rfc3986 <$> encodeURIComponent t.
Proof.
  cbn [encode default_encode strict plusForSpace].
  by destruct (encodeURIComponent t).
Qed.

Lemma encode_default_chars t e :
  Forall is_code_unit t → encode (VString t) default_encode = Returns e →
  Forall (λ c, field_char c = true) e.
Proof.
  intros Hu. rewrite encode_default. intros (e' & He' & ->)%fmap_Returns_inv.
  eapply rfc3986_chars, encodeURIComponent_chars; done.
Qed.

Lemma field_char_not_reserved c :
  field_char c = true → c ≠ 38 ∧ c ≠ 61 ∧ c ≠ 63.
Proof.
  unfold field_char, uriUnescaped, is_alpha, is_digit, uriMark.
  rewrite orb_true_iff, andb_true_iff, !orb_true_iff, !between_spec,
    bool_decide_eq_true, !elem_of_cons, elem_of_nil, Z.eqb_eq.
  lia.
Qed.

(** ** C7 and C10 *)

Lemma before_not_elem sep s : sep ∉ s → before sep s = s.
Proof.
  induction s as [|c rest IH]; [done|]. intros [Hc Hr]%not_elem_of_cons.
  cbn [before]. replace (c =? sep) with false by (symmetry; apply Z.eqb_neq; congruence).
  by rewrite IH.
Qed.

Lemma before_app sep a b : sep ∉ a → before sep (a ++ sep :: b) = a.
Proof.
  induction a as [|c a IH]; intros Ha.
  - cbn [app before]. by rewrite Z.eqb_refl.
  - apply not_elem_of_cons in Ha as [Hc Ha]. cbn [app before].
    replace (c =? sep) with false by (symmetry; apply Z.eqb_neq; congruence).
    by rewrite IH.
Qed.

Lemma after_app sep a b : sep ∉ a → after sep (a ++ sep :: b) = b.
Proof.
  induction a as [|c a IH]; intros Ha.
  - cbn [app after]. by rewrite Z.eqb_refl.
  - apply not_elem_of_cons in Ha as [Hc Ha]. cbn [app after].
    replace (c =? sep) with false by (symmetry; apply Z.eqb_neq; congruence).
    by rewrite IH.
Qed.

Lemma split_not_elem sep s : sep ∉ s → split sep s = [s].
Proof.
  intros Hs. rewrite split_unfold, before_not_elem by done.
  by rewrite bool_decide_eq_false_2.
Qed.

(** Splitting undoes joining when no piece holds the separator. *)
Lemma split_join sep pieces :
  pieces ≠ [] → Forall (λ p, sep ∉ p) pieces →
  split sep (join [sep] pieces) = pieces.
Proof.
  intros Hne Hall. induction Hall as [|p pieces Hp Hall IH]; [done|]. clear Hne.
  destruct pieces as [|p' pieces].
  - cbn [join]. by apply split_not_elem.
  - cbn [join]. cbn [join] in IH.
    rewrite split_unfold.
    change (p ++ [sep] ++ ?r) with (p ++ sep :: r).
    rewrite before_app, after_app by done.
    rewrite bool_decide_eq_true_2 by (apply elem_of_app; right; left).
    f_equal. by apply IH.
Qed.

Lemma Forall_field_not_elem s c :
  Forall (λ c, field_char c = true) s → c = 38 ∨ c = 61 ∨ c = 63 → c ∉ s.
Proof.
  intros Hs Hc Hin. eapply Forall_forall in Hs; [|exact Hin].
  apply field_char_not_reserved in Hs. lia.
Qed.

(** What [decodeQuery] reads back from one [key=value] of [encodeQuery]. *)
Lemma decode_text_encode t e :
  Forall is_code_unit t → well_formed t = true →
  encode (VString t) default_encode = Returns e →
  decode_text default_decode e = t.
Proof.
  intros Hu Hw. rewrite encode_default. intros (e' & He' & ->)%fmap_Returns_inv.
  unfold decode_text, plus_substituted. cbn [default_decode plusAsSpace].
  by rewrite (decodeURIComponent_rfc3986 t e').
Qed.

Lemma object_set_insert (o : gmap jsstring jsstring) key value :
  key ≠ js "__proto__" → object_set o key value = <[key := value]> o.
Proof. intros Hk. unfold object_set. by rewrite bool_decide_eq_false_2. Qed.

Lemma foldl_insert_list_to_map (l : list (jsstring * jsstring)) :
  NoDup l.*1 →
  foldl (λ (m : gmap jsstring jsstring) kv, <[kv.1 := kv.2]> m) ∅ l = list_to_map l.
Proof.
  induction l as [|[k v] l IH] using rev_ind; [done|].
  rewrite fmap_app, NoDup_app. intros (Hl & Hk & _).
  rewrite foldl_app, list_to_map_snoc, IH; [done..|].
  intros Hin. apply (Hk k Hin). cbn. left.
Qed.

Lemma fst_prod_map {A B C} (f : B → C) (l : list (A * B)) :
  (prod_map id f <$> l).*1 = l.*1.
Proof. induction l as [|[a b] l IH]; [done|]. cbn. by f_equal. Qed.

Section query_roundtrip.
Context {number : Type} (Number_toString : number → jsstring).

Lemma encodeQuery_fields (params : list (jsstring * query_value number)) :
  Forall (λ kv, text kv.1 ∧ text (String_ Number_toString kv.2)) params →
  ∃ fields,
    mapM (λ '(key, value),
            encodedKey ← encode (VString key) default_encode;
            encodedValue ← encode (VString (String_ Number_toString value)) default_encode;
            Returns (encodedKey ++ js "=" ++ encodedValue)) params
    = Returns fields
    ∧ Forall2 (field_of Number_toString) params fields.
Proof.
  induction 1 as [|[k v] params [[Hku Hkw] [Hvu Hvw]] _ (fields & Hfields & IH)].
  - exists []. by split.
  - cbn [fst snd] in *. rewrite mapM_cons, Hfields.
    destruct (encode_returns k default_encode Hkw) as [ek Hek].
    destruct (encode_returns (String_ Number_toString v) default_encode Hvw) as [ev Hev].
    rewrite Hek, Hev. eexists. split; [done|]. constructor; [|done].
    exists ek, ev. split_and!; [done|..].
    + by apply (encode_default_chars k).
    + by apply (encode_default_chars (String_ Number_toString v)).
    + by apply decode_text_encode.
    + by apply decode_text_encode.
Qed.

Lemma field_of_pair (kv : jsstring * query_value number) (field : jsstring) :
  field_of Number_toString kv field →
  (38 ∉ field) ∧ (63 ∉ field) ∧ field ≠ []
  ∧ decode_text default_decode (pair_key field) = kv.1
  ∧ decode_text default_decode (pair_value field) = String_ Number_toString kv.2.
Proof.
  intros (ek & ev & -> & Hek & Hev & Hk & Hv).
  assert (∀ c, c = 38 ∨ c = 61 ∨ c = 63 → c ∉ ek) as Hnk
    by (intros; by eapply Forall_field_not_elem).
  assert (∀ c, c = 38 ∨ c = 61 ∨ c = 63 → c ∉ ev) as Hnv
    by (intros; by eapply Forall_field_not_elem).
  change (ek ++ js "=" ++ ev) with (ek ++ 61 :: ev).
  unfold pair_key, pair_value.
  rewrite before_app, after_app, before_not_elem by (apply Hnk || apply Hnv; lia).
  split_and!; [| |by destruct ek|done..].
  - rewrite elem_of_app, elem_of_cons.
    intros [?|[?|?]]; [by eapply Hnk; [|done]; lia|lia|by eapply Hnv; [|done]; lia].
  - rewrite elem_of_app, elem_of_cons.
    intros [?|[?|?]]; [by eapply Hnk; [|done]; lia|lia|by eapply Hnv; [|done]; lia].
Qed.

Lemma decode_pairs_fields (params : list (jsstring * query_value number))
    (fields : list jsstring) (m : gmap jsstring jsstring) :
  Forall2 (field_of Number_toString) params fields →
  foldl (λ result pair,
           object_set result (decode_text default_decode (pair_key pair))
                             (decode_text default_decode (pair_value pair)))
        m fields
  = foldl (λ result kv, object_set result kv.1 kv.2) m
      (prod_map id (String_ Number_toString) <$> params).
Proof.
  intros H. revert m. induction H as [|kv field params fields Hf _ IH]; intros m; [done|].
  destruct (field_of_pair _ _ Hf) as (_ & _ & _ & Hk & Hv).
  cbn [foldl fmap list_fmap]. rewrite Hk, Hv. destruct kv as [k v]. apply IH.
Qed.

Lemma query_pairs_join (fields : list jsstring)
    (params : list (jsstring * query_value number)) :
  Forall2 (field_of Number_toString) params fields → query_pairs (join (js "&") fields) = fields.
Proof.
  intros H. destruct H as [|kv field params fields Hf H]; [done|].
  assert (Forall (λ p, 38 ∉ p) (field :: fields)) as Hall.
  { constructor; [by apply field_of_pair in Hf as (? & _)|].
    eapply Forall2_Forall_r; [exact H|]. apply Forall_true.
    intros kv' f' Hf'. by apply field_of_pair in Hf' as (? & _). }
  pose proof (split_join 38 (field :: fields) ltac:(done) Hall) as Hsplit.
  change (js "&") with [38]. unfold query_pairs.
  destruct (join [38] (field :: fields)) as [|c rest] eqn:Hj.
  { destruct (field_of_pair _ _ Hf) as (_ & _ & Hne & _).
    cbn [join] in Hj. destruct fields; [done|]. by destruct field. }
  assert (c ≠ 63) as Hc.
  { destruct (field_of_pair _ _ Hf) as (_ & H63 & Hne & _).
    destruct field as [|c' field]; [done|].
    assert (c = c') as -> by (cbn [join] in Hj; destruct fields; by injection Hj).
    intros ->. apply H63. left. }
  by replace (c =? 63) with false by (symmetry; apply Z.eqb_neq; done).
Qed.

(** C7, as the code has it: for an object whose keys are not
    ["__proto__"] and whose keys and stringified values are text,
    [encodeQuery] returns and [decodeQuery] of its result returns the map
    from each key to [String(value)]: every value comes back as a string.
    When all the values are strings that map is the object itself. *)
Theorem C7_query_roundtrip (params : list (jsstring * query_value number)) :
  NoDup params.*1 →
  Forall (λ kv, kv.1 ≠ js "__proto__" ∧ text kv.1
                ∧ text (String_ Number_toString kv.2)) params →
  ∃ e result,
    encodeQuery Number_toString params default_encode = Returns e
    ∧ decodeQuery e default_decode = Returns result
    ∧ result = String_ Number_toString <$> list_to_map params
    ∧ (Forall (λ kv, ∃ s, kv.2 = QString s) params →
       QString <$> result = list_to_map params).
Proof.
  intros Hnd Hall.
  destruct (encodeQuery_fields params) as (fields & Hfields & Hf).
  { eapply Forall_impl; [exact Hall|]. by intros kv (_ & ? & ?). }
  exists (join (js "&") fields), (String_ Number_toString <$> list_to_map params).
  split_and!; [| |done|].
  - unfold encodeQuery. by rewrite Hfields.
  - rewrite decodeQuery_pairs, (query_pairs_join fields params) by done.
    unfold decode_pairs. rewrite (decode_pairs_fields params) by done.
    rewrite <- list_to_map_fmap. f_equal.
    rewrite <- foldl_insert_list_to_map.
    2:{ by rewrite fst_prod_map. }
    assert (Forall (λ kv : jsstring * jsstring, kv.1 ≠ js "__proto__")
              (prod_map id (String_ Number_toString) <$> params)) as Hproto.
    { apply Forall_fmap. eapply Forall_impl; [exact Hall|]. by intros [] (? & _). }
    generalize (∅ : gmap jsstring jsstring).
    induction Hproto as [|kv l Hkv _ IH]; intros m; [done|].
    cbn [foldl]. rewrite object_set_insert by done. apply IH.
  - intros Hstr. rewrite <- map_fmap_compose. apply map_eq. intros k.
    rewrite lookup_fmap. destruct (list_to_map params !! k) as [v|] eqn:Hk; [|done].
    apply elem_of_list_to_map_2 in Hk. eapply Forall_forall in Hstr; [|exact Hk].
    destruct Hstr as [s Hs]. cbn in Hs. by subst v.
Qed.

End query_roundtrip.

Lemma C7_query_roundtrip_witness :
  ∃ e result,
    encodeQuery integer_toString
      [(js "name", QString (js "John Doe")); (js "age", QNumber 25);
       (js "active", QBoolean true)] default_encode = Returns e
    ∧ decodeQuery e default_decode = Returns result
    ∧ result = String_ integer_toString <$>
        list_to_map [(js "name", QString (js "John Doe")); (js "age", QNumber 25);
                     (js "active", QBoolean true)]
    ∧ (Forall (λ kv, ∃ s, kv.2 = QString s)
         [(js "name", QString (js "John Doe")); (js "age", QNumber 25);
          (js "active", QBoolean true)] →
       QString <$> result
       = list_to_map [(js "name", QString (js "John Doe")); (js "age", QNumber 25);
                      (js "active", QBoolean true)]).
Proof.
  apply (C7_query_roundtrip integer_toString).
  - cbn. repeat constructor; rewrite ?elem_of_cons, ?elem_of_nil; intros H;
      repeat destruct H as [H|H]; done.
  - repeat constructor; cbn; unfold is_code_unit; try lia; discriminate.
Defined.

(** C7 as stated fails: the boolean of [{active: true}] comes back as
    the string ['true']. *)
Lemma C7_counterexample :
  encodeQuery integer_toString [(js "active", QBoolean true)] default_encode
    = Returns (js "active=true")
  ∧ decodeQuery (js "active=true") default_decode
    = Returns {[ js "active" := js "true" ]}
  ∧ (QString <$> ({[ js "active" := js "true" ]} : gmap jsstring jsstring))
    ≠ list_to_map [(js "active", @QBoolean Z true)].
Proof.
  split_and!; [vm_compute; reflexivity..|].
  intros H. apply (f_equal (λ m, m !! js "active")) in H.
  rewrite lookup_fmap, lookup_singleton_eq in H. cbn in H.
  rewrite lookup_insert_eq in H. discriminate.
Qed.

Lemma decode_pairs_no_proto options pairs :
  decode_pairs options pairs !! js "__proto__" = None.
Proof.
  unfold decode_pairs.
  generalize (lookup_empty (M := gmap jsstring) (A := jsstring) (js "__proto__")).
  generalize (∅ : gmap jsstring jsstring).
  induction pairs as [|pair pairs IH]; intros m Hm; [done|].
  cbn [foldl]. apply IH. unfold object_set. case_bool_decide as Hk; [done|].
  by rewrite lookup_insert_ne.
Qed.

(** C10: whatever the value, [decodeQuery('__proto__=' + v)] returns a
    map with no entry for ["__proto__"] (no query string gives one), while
    the other pairs are kept; so what [decodeQuery] reads back from
    [encodeQuery] of an object with that key lacks the key: for
    [{"__proto__": 'x'}] it is the empty map. *)
Theorem C10_proto_dropped :
  (∀ (v : jsstring) (options : DecodeOptions),
     ∃ result, decodeQuery (js "__proto__=" ++ v) options = Returns result
               ∧ result !! js "__proto__" = None)
  ∧ (∀ (queryString : jsstring) (options : DecodeOptions),
     ∃ result, decodeQuery queryString options = Returns result
               ∧ result !! js "__proto__" = None)
  ∧ decodeQuery (js "__proto__=x&a=1") default_decode = Returns {[ js "a" := js "1" ]}
  ∧ encodeQuery integer_toString [(js "__proto__", QString (js "x"))] default_encode
    = Returns (js "__proto__=x")
  ∧ decodeQuery (js "__proto__=x") default_decode = Returns ∅
  ∧ (∀ (number : Type) (Number_toString : number → jsstring)
       (params : list (jsstring * query_value number)) (v : query_value number)
       (e : jsstring) (result : gmap jsstring jsstring),
     (js "__proto__", v) ∈ params →
     encodeQuery Number_toString params default_encode = Returns e →
     decodeQuery e default_decode = Returns result →
     result !! js "__proto__" = None
     ∧ is_Some ((list_to_map params : gmap jsstring (query_value number))
                !! js "__proto__")).
Proof.
  assert (∀ q options, ∃ result, decodeQuery q options = Returns result
                                 ∧ result !! js "__proto__" = None) as Hall.
  { intros q options. eexists. split; [apply decodeQuery_pairs|].
    apply decode_pairs_no_proto. }
  split_and!; [intros; apply Hall|done|vm_compute; reflexivity..|].
  intros number Number_toString params v e result Hin _ Hdec.
  destruct (Hall e default_decode) as (result' & Hdec' & Hnone).
  rewrite Hdec in Hdec'. injection Hdec' as <-. split; [done|].
  apply not_eq_None_Some.
  rewrite <- not_elem_of_list_to_map. intros Hnot. apply Hnot.
  apply list_elem_of_fmap. by exists (js "__proto__", v).
Qed.

(** ** What [decodeURIComponent] returns on ASCII text is well formed *)

Lemma hex_value_range c h : hex_value c = Some h → 0 <= h < 16.
Proof.
  unfold hex_value, is_digit. repeat case_match; intros [= <-];
    repeat match goal with H : between _ _ _ = true |- _ => apply between_spec in H end;
    lia.
Qed.

Lemma ParseHexOctet_range s b : ParseHexOctet s = Some b → 0 <= b < 256.
Proof.
  destruct s as [|h1 [|h2 s]]; [done..|]. cbn [ParseHexOctet].
  destruct (hex_value h1) as [hi|] eqn:H1; [|done].
  destruct (hex_value h2) as [lo|] eqn:H2; [|done].
  apply hex_value_range in H1, H2. intros [= <-]. lia.
Qed.

Lemma continuation_octets_rest (P : Z → Prop) j s octets rest :
  continuation_octets j s = Some (octets, rest) → Forall P s → Forall P rest.
Proof.
  revert s octets rest. induction j as [|j IH]; intros s octets rest.
  - by intros [= _ <-].
  - cbn [continuation_octets]. destruct s as [|c s]; [done|].
    destruct (c =? 37); [|done]. destruct (ParseHexOctet s); [|done].
    cbn [mbind option_bind].
    destruct (continuation_octets j (drop 2 s)) as [[o r]|] eqn:Hc; [|done].
    intros [= _ <-] [_ Hs]%Forall_cons. eapply IH; [exact Hc|].
    by apply Forall_drop.
Qed.

Lemma utf8_code_point_scalar b0 octets v :
  0 <= b0 < 256 → utf8_code_point (b0 :: octets) = Some v → is_scalar v.
Proof.
  intros Hb. unfold utf8_code_point, is_continuation, is_scalar.
  destruct octets as [|b1 [|b2 [|b3 [|]]]]; [done| | | |done];
    case_match; intros [= <-]; bool_to_prop;
    repeat match goal with
    | H : between _ _ _ = true |- _ => apply between_spec in H
    | H : between _ _ _ = false |- _ => apply between_false in H
    end; lia.
Qed.

Lemma UTF16Encode_well_formed v d :
  is_scalar v → well_formed (UTF16EncodeCodePoint v ++ d) = well_formed d.
Proof.
  intros [Hr Hs]. unfold UTF16EncodeCodePoint.
  destruct (v <=? 0xFFFF) eqn:E; bool_to_prop; cbn [app well_formed].
  - replace (is_leading_surrogate v) with false
      by (symmetry; apply between_false; lia).
    by replace (is_trailing_surrogate v) with false
      by (symmetry; apply between_false; lia).
  - replace (is_leading_surrogate _) with true
      by (symmetry; apply between_spec; zlia).
    by replace (is_trailing_surrogate _) with true
      by (symmetry; apply between_spec; zlia).
Qed.

Lemma well_formed_ascii_cons c d :
  is_ascii c → well_formed (c :: d) = well_formed d.
Proof.
  unfold is_ascii. intros Hc. cbn [well_formed].
  replace (is_leading_surrogate c) with false
    by (symmetry; apply between_false; lia).
  by replace (is_trailing_surrogate c) with false
    by (symmetry; apply between_false; lia).
Qed.

Lemma Decode_ascii_well_formed fuel s d :
  Forall is_ascii s → Decode fuel s = Returns d → well_formed d = true.
Proof.
  revert s d. induction fuel as [|fuel IH]; intros s d Hs.
  - destruct s; [by intros [= <-]|done].
  - destruct s as [|c rest]; [by intros [= <-]|]. cbn [Decode].
    apply Forall_cons in Hs as [Hc Hrest].
    destruct (c =? 37).
    + destruct (ParseHexOctet rest) as [b|] eqn:Hb; [|done].
      apply ParseHexOctet_range in Hb.
      destruct (leading_ones b) as [|[|n]] eqn:Hn; [| done |].
      * intros (d' & Hd' & ->)%fmap_Returns_inv.
        rewrite well_formed_ascii_cons.
        -- eapply IH; [|exact Hd']. by apply Forall_drop.
        -- revert Hn. unfold leading_ones, is_ascii.
           repeat case_match; bool_to_prop; (done || lia).
      * destruct n as [|[|[|n]]]; [..|done];
          (destruct (continuation_octets _ _) as [[octets rest3]|] eqn:Hc3; [|done];
           destruct (utf8_code_point _) as [v|] eqn:Hv; [|done];
           intros (d' & Hd' & ->)%fmap_Returns_inv;
           rewrite UTF16Encode_well_formed
             by (eapply utf8_code_point_scalar; [exact Hb|exact Hv]);
           eapply IH; [|exact Hd'];
           eapply continuation_octets_rest; [exact Hc3|]; by apply Forall_drop).
    + intros (d' & Hd' & ->)%fmap_Returns_inv.
      rewrite well_formed_ascii_cons by done. by eapply IH.
Qed.

(** Enough fuel: the result of [Decode] does not depend on it. *)
Lemma Decode_fuel fuel s :
  (length s <= fuel)%nat → Decode fuel s = decodeURIComponent s.
Proof.
  unfold decodeURIComponent.
  revert fuel. induction s as [s IH] using (induction_ltof1 _ length).
  unfold ltof in IH. intros fuel Hfuel.
  destruct s as [|c rest]; [by destruct fuel|].
  destruct fuel as [|fuel]; [cbn [length] in Hfuel; lia|].
  cbn [length] in *. cbn [Decode].
  assert (∀ r, (length r <= length rest)%nat →
            Decode fuel r = Decode (length rest) r) as Hr.
  { intros r Hlen. rewrite (IH r ltac:(lia) fuel), (IH r ltac:(lia) (length rest)) by lia.
    done. }
  destruct (c =? 37); [|by rewrite Hr].
  destruct (ParseHexOctet rest); [|done].
  destruct (leading_ones z) as [|[|n]]; [|done|].
  - rewrite Hr; [done|]. rewrite length_drop. lia.
  - destruct n as [|[|[|n]]]; [..|done];
      (destruct (continuation_octets _ _) as [[octets rest3]|] eqn:Hc3; [|done];
       destruct (utf8_code_point _); [|done];
       rewrite Hr; [done|];
       apply continuation_octets_length in Hc3; rewrite length_drop in Hc3; lia).
Qed.

(** ** [encodeUrl] on a URL that parses *)

Lemma encodeUrl_parsed new_URL url urlObj :
  new_URL url = Some (Returns urlObj) → URL_text urlObj →
  ∃ newParams fragment,
    length newParams = length (searchParams urlObj)
    ∧ match hash urlObj with
      | [] => fragment = []
      | _ :: raw => ∃ h, fragment = js "#" ++ h ∧ reencoded_fragment raw h
      end
    ∧ encodeUrl new_URL (VString url)
      = Some (Returns (URL_base urlObj
                       ++ match newParams with
                          | [] => []
                          | _ :: _ => js "?" ++ join (js "&") newParams
                          end
                       ++ fragment)).
Proof.
  intros Hparse [Hparams Hhash].
  set (f := λ '(key, value),
              k ← encode (VString key) default_encode;
              v ← encode (VString value) default_encode;
              Returns (k ++ js "=" ++ v)).
  assert (∃ newParams, mapM f (searchParams urlObj) = Returns newParams
                       ∧ length newParams = length (searchParams urlObj))
    as (newParams & HnewParams & Hlen).
  { clear Hparse Hhash. induction Hparams as [|[k v] l [Hk Hv] _ (np & Hnp & Hl)].
    - by exists [].
    - destruct (encode_returns k default_encode Hk) as [ek Hek].
      destruct (encode_returns v default_encode Hv) as [ev Hev].
      exists ((ek ++ js "=" ++ ev) :: np). rewrite mapM_cons, Hnp. unfold f at 1.
      rewrite Hek, Hev. split; [done|]. cbn [length]. by rewrite Hl. }
  assert (∃ fragment,
            match hash urlObj with
            | [] => Returns []
            | _ :: _ =>
                try_catch
                  (decodedHash ← decodeURIComponent (drop 1 (hash urlObj));
                   h ← encode (VString decodedHash) default_encode;
                   Returns (js "#" ++ h))
                  (λ _,
                   h ← encode (VString (drop 1 (hash urlObj))) default_encode;
                   Returns (js "#" ++ h))
            end = Returns fragment
            ∧ match hash urlObj with
              | [] => fragment = []
              | _ :: raw => ∃ h, fragment = js "#" ++ h ∧ reencoded_fragment raw h
              end) as (fragment & Hfragment & Hspec).
  { destruct (hash urlObj) as [|c raw]; [by exists []|].
    apply Forall_cons in Hhash as [_ Hraw]. cbn [drop]. rewrite drop_0.
    unfold reencoded_fragment.
    destruct (decodeURIComponent raw) as [decoded|e] eqn:Hdec.
    - apply Decode_ascii_well_formed in Hdec; [|done].
      destruct (encode_returns decoded default_encode Hdec) as [h Hh].
      exists (js "#" ++ h). cbn [mbind completion_bind]. rewrite Hh. eauto.
    - assert (well_formed raw = true) as Hw.
      { clear Hdec. induction Hraw as [|c' raw Hc' _ IH]; [done|].
        by rewrite well_formed_ascii_cons. }
      destruct (encode_returns raw default_encode Hw) as [h Hh].
      exists (js "#" ++ h). cbn [mbind completion_bind try_catch]. rewrite Hh. eauto. }
  exists newParams, fragment. split_and!; [done..|].
  cbn [encodeUrl]. rewrite Hparse. cbn [mbind option_bind completion_bind].
  fold f. rewrite HnewParams. cbn [mbind completion_bind].
  by rewrite Hfragment.
Qed.

(** ** C8 *)

(** C8 fails on the code.  On a URL that parses, [encodeUrl] does not
    copy the text before the query: it writes [protocol//host] and
    [pathname] as the URL object reports them, whatever the parser, and
    nothing else of what stands there.  So
    ['https://example.com?query=x'] comes back with a ['/'] before the
    ['?'], ['https://example.com'] (no query, no fragment) with a ['/']
    added, ['https://EXAMPLE.com:443/a'] in lower case and without its
    port, and, [host] holding no credentials, a parser that answers
    ['https://user:pw@example.com/x'] with the host ['example.com'] makes
    the result ['https://example.com/x'].
    ['https://example.com:8080/path/to/resource'] does come back as it
    is. *)
Theorem C8_structure_not_preserved :
  (∀ (new_URL : jsstring → option (completion URL)) (url : jsstring) (urlObj : URL),
     new_URL url = Some (Returns urlObj) → URL_text urlObj →
     ∃ query fragment,
       encodeUrl new_URL (VString url)
       = Some (Returns (URL_base urlObj ++ query ++ fragment))
       ∧ (query = [] ∨ ∃ q, query = js "?" ++ q)
       ∧ (fragment = [] ∨ ∃ h, fragment = js "#" ++ h)
       ∧ (searchParams urlObj = [] → query = [])
       ∧ (hash urlObj = [] → fragment = []))
  ∧ encodeUrl WHATWG.new_URL (VString (js "https://example.com?query=x"))
    = Some (Returns (js "https://example.com/?query=x"))
  ∧ starts_with (js "https://example.com/?query=x") (js "https://example.com?") = false
  ∧ encodeUrl WHATWG.new_URL (VString (js "https://example.com"))
    = Some (Returns (js "https://example.com/"))
  ∧ js "https://example.com/" ≠ js "https://example.com"
  ∧ encodeUrl WHATWG.new_URL (VString (js "https://EXAMPLE.com:443/a"))
    = Some (Returns (js "https://example.com/a"))
  ∧ (∀ new_URL : jsstring → option (completion URL),
       new_URL (js "https://user:pw@example.com/x")
       = Some (Returns {| protocol := js "https:"; host := js "example.com";
                          pathname := js "/x"; searchParams := []; hash := [] |}) →
       encodeUrl new_URL (VString (js "https://user:pw@example.com/x"))
       = Some (Returns (js "https://example.com/x")))
  ∧ encodeUrl WHATWG.new_URL (VString (js "https://example.com:8080/path/to/resource"))
    = Some (Returns (js "https://example.com:8080/path/to/resource")).
Proof.
  split_and!; [|vm_compute; reflexivity..|discriminate|vm_compute; reflexivity|
               |vm_compute; reflexivity].
  - intros new_URL url urlObj Hparse Htext.
    destruct (encodeUrl_parsed new_URL url urlObj Hparse Htext)
      as (newParams & fragment & Hlen & Hfragment & ->).
    eexists _, fragment. split_and!; [done|..].
    + destruct newParams; [by left|right; by eexists].
    + destruct (hash urlObj); [by left|]. destruct Hfragment as (h & -> & _).
      right; by eexists.
    + intros Hnone. rewrite Hnone in Hlen. by destruct newParams.
    + intros Hnone. by rewrite Hnone in Hfragment.
  - intros new_URL Hparse. cbn [encodeUrl]. rewrite Hparse. vm_compute. reflexivity.
Qed.

Lemma C8_structure_not_preserved_witness :
  ∃ query fragment,
    encodeUrl WHATWG.new_URL (VString (js "https://example.com/path?name=John Doe"))
    = Some (Returns (js "https://example.com/path" ++ query ++ fragment))
    ∧ (query = [] ∨ ∃ q, query = js "?" ++ q)
    ∧ (fragment = [] ∨ ∃ h, fragment = js "#" ++ h)
    ∧ ([(js "name", js "John Doe")] = [] → query = [])
    ∧ (@nil Z = [] → fragment = []).
Proof.
  apply (proj1 C8_structure_not_preserved WHATWG.new_URL
           (js "https://example.com/path?name=John Doe")
           {| protocol := js "https:"; host := js "example.com";
              pathname := js "/path";
              searchParams := [(js "name", js "John Doe")]; hash := [] |}).
  - vm_compute. reflexivity.
  - split; cbn; repeat constructor.
Defined.

(** ** C9 *)

(** C9: on a URL that parses with a non-empty [hash], [encodeUrl] ends its
    result with ['#'] and the encoding of the percent-decoded raw fragment
    when that decoding succeeds, and of the raw fragment itself when it
    fails.  For ['https://example.com/page#section name'] the result is
    ['https://example.com/page#section%20name']: it contains
    ['#section%20name'] and no ['%2520']. *)
Theorem C9_fragment_decoded_then_encoded :
  (∀ (new_URL : jsstring → option (completion URL)) (url : jsstring) (urlObj : URL),
     new_URL url = Some (Returns urlObj) → URL_text urlObj → hash urlObj ≠ [] →
     ∃ query h,
       encodeUrl new_URL (VString url)
       = Some (Returns (URL_base urlObj ++ query ++ js "#" ++ h))
       ∧ reencoded_fragment (drop 1 (hash urlObj)) h)
  ∧ encodeUrl WHATWG.new_URL (VString (js "https://example.com/page#section name"))
    = Some (Returns (js "https://example.com/page#section%20name"))
  ∧ String_includes (js "https://example.com/page#section%20name")
      (js "#section%20name") = true
  ∧ String_includes (js "https://example.com/page#section%20name") (js "%2520") = false.
Proof.
  split; [|split_and!; vm_compute; reflexivity].
  intros new_URL url urlObj Hparse Htext Hhash.
  destruct (encodeUrl_parsed new_URL url urlObj Hparse Htext)
    as (newParams & fragment & _ & Hfragment & ->).
  destruct (hash urlObj) as [|c raw]; [done|].
  destruct Hfragment as (h & -> & Hh). eexists _, h. split; [done|].
  cbn [drop]. by rewrite drop_0.
Qed.

Lemma C9_fragment_decoded_then_encoded_witness :
  ∃ query h,
    encodeUrl WHATWG.new_URL (VString (js "https://example.com/page#a%20b c"))
    = Some (Returns (js "https://example.com/page" ++ query ++ js "#" ++ h))
    ∧ reencoded_fragment (js "a%20b%20c") h.
Proof.
  apply (proj1 C9_fragment_decoded_then_encoded WHATWG.new_URL
           (js "https://example.com/page#a%20b c")
           {| protocol := js "https:"; host := js "example.com";
              pathname := js "/page"; searchParams := []; hash := js "#a%20b%20c" |}).
  - vm_compute. reflexivity.
  - split; cbn; repeat constructor; unfold is_ascii; lia.
  - discriminate.
Defined.


(** ** The alphabet of strict mode *)

Lemma mapM_Returns_inv {A B} (f : A → completion B) l k :
  mapM f l = Returns k → Forall2 (λ x y, f x = Returns y) l k.
Proof.
  revert k. induction l as [|x l IH]; intros k.
  - intros [= <-]. constructor.
  - rewrite mapM_cons. destruct (f x) as [y|] eqn:Hy; [|done].
    cbn [mbind completion_bind]. destruct (mapM f l) as [k'|]; [|done].
    intros [= <-]. constructor; [done|]. by apply IH.
Qed.

Lemma Forall_join_nil (P : Z → Prop) parts :
  Forall (Forall P) parts → Forall P (join [] parts).
Proof.
  induction 1 as [|p parts Hp _ IH]; [constructor|]. cbn [join].
  destruct parts; [done|]. cbn [app]. apply Forall_app. by split.
Qed.

Lemma Array_from_chars t :
  Forall is_code_unit t →
  Forall (λ char, Forall is_code_unit char
                  ∧ (strict_test char = true → ∃ c, char = [c] ∧ strict_class c = true))
         (Array_from t).
Proof.
  induction t as [t IH] using (induction_ltof1 _ length). unfold ltof in IH.
  destruct t as [|c rest]; [constructor|]. intros [Hc Hrest]%Forall_cons.
  assert (Forall is_code_unit [c]
          ∧ (strict_test [c] = true → ∃ c', [c] = [c'] ∧ strict_class c' = true)) as Hunit.
  { split; [by apply Forall_singleton|]. cbn [strict_test existsb].
    rewrite orb_false_r. by exists c. }
  cbn [Array_from]. destruct (is_leading_surrogate c) eqn:Hl;
    [|constructor; [done|apply IH; [cbn [length]; lia|done]]].
  destruct rest as [|c2 rest]; [by apply Forall_singleton|].
  destruct (is_trailing_surrogate c2) eqn:Ht;
    [|constructor; [done|apply IH; [cbn [length]; lia|done]]].
  apply Forall_cons in Hrest as [Hc2 Hrest].
  constructor; [|apply IH; [cbn [length]; lia|done]].
  split; [by apply Forall_cons_2; [|apply Forall_singleton]|].
  cbn [strict_test existsb]. rewrite orb_false_r.
  apply between_spec in Hl, Ht. unfold strict_class, is_alpha, is_digit.
  rewrite !orb_true_iff, !between_spec, !Z.eqb_eq. lia.
Qed.

Lemma strict_class_field_char c : strict_class c = true → field_char c = true.
Proof.
  unfold strict_class, field_char, uriUnescaped, extra_reserved, uriMark,
    is_alpha, is_digit.
  rewrite !orb_true_iff, andb_true_iff, negb_true_iff, !orb_true_iff, !between_spec,
    bool_decide_eq_true, bool_decide_eq_false, !elem_of_cons, !elem_of_nil, !Z.eqb_eq.
  lia.
Qed.

(** X1: what strict mode does guarantee when no character is allowed: the
    result holds only letters, digits, [- _ . ~] and ['%']. *)
Theorem strict_alphabet (t e : jsstring) :
  Forall is_code_unit t →
  encode (VString t) strict_only = Returns e →
  Forall (λ c, field_char c = true) e.
Proof.
  intros Hu. cbn [encode strict_only strict plusForSpace allowedChars].
  destruct (encodeURIComponent t) as [enc|]; [|done]. cbn [mbind completion_bind].
  destruct (mapM (strict_char []) (Array_from t)) as [parts|] eqn:Hparts; [|done].
  intros [= <-]. apply Forall_join_nil.
  apply mapM_Returns_inv in Hparts. pose proof (Array_from_chars t Hu) as Hchars.
  induction Hparts as [|char part chars parts Hpart _ IH]; [constructor|].
  apply Forall_cons in Hchars as [[Hcu Hsafe] Hchars]. constructor; [|by apply IH].
  revert Hpart. unfold strict_char.
  destruct (strict_test char) eqn:Htest; cbn [orb].
  - intros [= <-]. destruct (Hsafe eq_refl) as (c & -> & Hc).
    apply Forall_singleton. by apply strict_class_field_char.
  - unfold includes. rewrite bool_decide_eq_false_2 by apply not_elem_of_nil.
    destruct (encodeURIComponent char) as [enc'|] eqn:Henc; [|done].
    intros [= <-]. eapply rfc3986_chars, encodeURIComponent_chars; done.
Qed.

Lemma strict_alphabet_witness :
  Forall (λ c, field_char c = true) (js "Hello.World%21%F0%9F%8E%89").
Proof.
  apply (strict_alphabet (js "Hello.World!" ++ [0xD83C; 0xDF89])).
  - repeat constructor; unfold is_code_unit; lia.
  - reflexivity.
Defined.

(** X2: the alphabet of the default policy: the result of [encode] holds
    only letters, digits, [- _ . ~] and ['%']. *)
Theorem default_alphabet (t e : jsstring) :
  Forall is_code_unit t →
  encode (VString t) default_encode = Returns e →
  Forall (λ c, field_char c = true) e.
Proof. apply encode_default_chars. Qed.

Lemma default_alphabet_witness :
  Forall (λ c, field_char c = true) (js "it%27s%20%281%29%2A").
Proof.
  apply (default_alphabet (js "it's (1)*")).
  - repeat constructor; unfold is_code_unit; lia.
  - reflexivity.
Defined.

(** * Further properties *)

(** ** [decodeURIComponent], one step at a time *)

Lemma decodeURIComponent_literal c rest :
  c ≠ 37 → decodeURIComponent (c :: rest) = (c ::.) <$> decodeURIComponent rest.
Proof. intros Hc. unfold decodeURIComponent. cbn [length]. by apply Decode_literal. Qed.

Lemma decodeURIComponent_escapes cp rest :
  is_scalar cp →
  decodeURIComponent (percent_all (utf8_octets cp) ++ rest)
  = (UTF16EncodeCodePoint cp ++.) <$> decodeURIComponent rest.
Proof.
  intros Hcp. unfold decodeURIComponent at 1.
  rewrite length_app, percent_all_length. pose proof (utf8_octets_nonempty cp).
  destruct (3 * length (utf8_octets cp) + length rest)%nat as [|fuel] eqn:Hfuel; [lia|].
  rewrite Decode_escapes by done. rewrite Decode_fuel by lia. done.
Qed.

Lemma decodeURIComponent_plain s : 37 ∉ s → decodeURIComponent s = Returns s.
Proof.
  induction s as [|c s IH]; [done|]. intros [Hc Hs]%not_elem_of_cons.
  rewrite decodeURIComponent_literal by congruence. by rewrite IH.
Qed.

Lemma join_nil_cons p parts : join [] (p :: parts) = p ++ join [] parts.
Proof. cbn [join]. destruct parts; [by rewrite app_nil_r|done]. Qed.

(** ** Strict mode with no allowed character is the default mode *)

Lemma strict_class_unescaped c :
  strict_class c = true → uriUnescaped c = true ∧ extra_reserved c = false.
Proof.
  unfold strict_class, uriUnescaped, extra_reserved, uriMark, is_alpha, is_digit.
  rewrite !orb_true_iff, !between_spec, bool_decide_eq_true, bool_decide_eq_false,
    !elem_of_cons, !elem_of_nil, !Z.eqb_eq.
  lia.
Qed.

Lemma strict_char_unit c :
  is_leading_surrogate c = false → is_trailing_surrogate c = false →
  strict_char [] [c]
  = Returns (rfc3986 (if uriUnescaped c then [c] else percent_all (utf8_octets c))).
Proof.
  intros Hl Ht. unfold strict_char, includes.
  rewrite (bool_decide_eq_false_2 ([c] ∈ [])) by apply not_elem_of_nil.
  cbn [strict_test existsb]. rewrite !orb_false_r.
  destruct (strict_class c) eqn:Hc.
  - apply strict_class_unescaped in Hc as [-> Hx].
    by rewrite rfc3986_id by by apply Forall_singleton.
  - cbn [encodeURIComponent]. rewrite Hl, Ht.
    destruct (uriUnescaped c); cbn; by rewrite ?app_nil_r.
Qed.

Lemma strict_char_pair c c2 :
  is_leading_surrogate c = true → is_trailing_surrogate c2 = true →
  strict_char [] [c; c2]
  = Returns (rfc3986 (percent_all (utf8_octets (UTF16SurrogatePairToCodePoint c c2)))).
Proof.
  intros Hl Ht. unfold strict_char, includes.
  rewrite (bool_decide_eq_false_2 ([c; c2] ∈ [])) by apply not_elem_of_nil.
  assert (strict_class c = false ∧ strict_class c2 = false ∧ uriUnescaped c = false)
    as (Hc & Hc2 & Hun).
  { apply between_spec in Hl, Ht.
    unfold strict_class, uriUnescaped, uriMark, is_alpha, is_digit.
    rewrite !orb_false_iff, !between_false, bool_decide_eq_false, !Z.eqb_neq,
      !elem_of_cons, !elem_of_nil. lia. }
  cbn [strict_test existsb]. rewrite Hc, Hc2. cbn [orb].
  cbn [encodeURIComponent]. rewrite Hun, Hl, Ht. cbn. by rewrite app_nil_r.
Qed.

Lemma strict_parts t :
  well_formed t = true →
  ∃ e parts, encodeURIComponent t = Returns e
    ∧ mapM (strict_char []) (Array_from t) = Returns parts
    ∧ join [] parts = rfc3986 e.
Proof.
  revert t. apply well_formed_ind.
  - by exists [], [].
  - intros c rest Hl Ht _ (e & parts & He & Hparts & Hjoin).
    cbn [encodeURIComponent Array_from]. rewrite Hl, Ht, He.
    rewrite mapM_cons, strict_char_unit, Hparts by done.
    destruct (uriUnescaped c); eexists _, _; (split_and!; [done..|]);
      rewrite join_nil_cons, Hjoin.
    + change (c :: e) with ([c] ++ e). by rewrite rfc3986_app.
    + by rewrite rfc3986_app.
  - intros c c2 rest Hl Ht _ (e & parts & He & Hparts & Hjoin).
    cbn [encodeURIComponent Array_from]. rewrite Hl, Ht, He.
    replace (uriUnescaped c) with false.
    2:{ symmetry. apply not_true_is_false. intros [? ?]%uriUnescaped_ascii.
        apply between_spec in Hl. lia. }
    rewrite mapM_cons, strict_char_pair, Hparts by done.
    eexists _, _. split_and!; [done..|].
    by rewrite join_nil_cons, Hjoin, rfc3986_app.
Qed.

Lemma encode_strict_eq (str : value) (plus : bool) :
  encode str {| plusForSpace := plus; strict := true; allowedChars := [] |}
  = encode str {| plusForSpace := plus; strict := false; allowedChars := [] |}.
Proof.
  destruct str as [| | | |t|]; try done.
  destruct (well_formed t) eqn:Hw; [|by rewrite !encode_throws].
  destruct (strict_parts t Hw) as (e & parts & He & Hparts & Hjoin).
  cbn [encode strict plusForSpace allowedChars]. rewrite He, Hparts.
  cbn. by rewrite Hjoin.
Qed.

(** X4: with no allowed character the [strict] flag changes nothing: for
    every argument and either space convention, [encode] with
    [strict: true] gives what it gives with [strict: false]. *)
Theorem strict_without_allowedChars_is_default (str : value) (plus : bool) :
  encode str {| plusForSpace := plus; strict := true; allowedChars := [] |}
  = encode str {| plusForSpace := plus; strict := false; allowedChars := [] |}.
Proof. apply encode_strict_eq. Qed.

(** ** Allowed characters in strict mode *)

Lemma Array_from_join t : join [] (Array_from t) = t.
Proof.
  induction t as [t IH] using (induction_ltof1 _ length). unfold ltof in IH.
  destruct t as [|c rest]; [done|]. cbn [Array_from].
  destruct (is_leading_surrogate c);
    [|rewrite join_nil_cons, IH by (cbn [length]; lia); done].
  destruct rest as [|c2 rest]; [done|].
  destruct (is_trailing_surrogate c2);
    rewrite join_nil_cons, IH by (cbn [length]; lia); done.
Qed.

(** X5: in strict mode a string with no unpaired surrogate whose every
    character is a letter, a digit, ['-'], ['_'] or one of [allowedChars]
    is returned as it is. *)
Theorem strict_allowed_unchanged (t : jsstring) (allowed : list jsstring) :
  well_formed t = true →
  Forall (λ char, strict_test char || includes allowed char = true) (Array_from t) →
  encode (VString t) {| plusForSpace := false; strict := true; allowedChars := allowed |}
  = Returns t.
Proof.
  intros Hw Hsafe. cbn [encode strict plusForSpace allowedChars].
  destruct (encodeURIComponent_returns t Hw) as [e ->]. cbn [mbind completion_bind].
  assert (mapM (strict_char allowed) (Array_from t) = Returns (Array_from t)) as ->.
  { induction Hsafe as [|char chars Hchar _ IH]; [done|].
    rewrite mapM_cons, IH. unfold strict_char. by rewrite Hchar. }
  cbn. by rewrite Array_from_join.
Qed.

Lemma strict_allowed_unchanged_witness :
  encode (VString (js "user@example.com"))
    {| plusForSpace := false; strict := true; allowedChars := [js "@"; js "."] |}
  = Returns (js "user@example.com").
Proof.
  apply (strict_allowed_unchanged (js "user@example.com") [js "@"; js "."]).
  - reflexivity.
  - vm_compute. repeat constructor.
Defined.

(** ** The two space conventions *)

Lemma replace_pct20_literal c rest :
  c ≠ 37 → replace_pct20 (c :: rest) = c :: replace_pct20 rest.
Proof.
  intros Hc. cbn [replace_pct20]. destruct rest as [|c2 [|c3 rest]]; [done..|].
  by replace (c =? 37) with false by (symmetry; apply Z.eqb_neq; done).
Qed.

Lemma hex_digit_not_percent d : 0 <= d < 16 → hex_digit d ≠ 37.
Proof. intros Hd. unfold hex_digit. case_match; lia. Qed.

Lemma replace_pct20_three c c2 c3 rest :
  replace_pct20 (c :: c2 :: c3 :: rest)
  = if (c =? 37) && (c2 =? 50) && (c3 =? 48) then 43 :: replace_pct20 rest
    else c :: replace_pct20 (c2 :: c3 :: rest).
Proof. done. Qed.

Lemma replace_pct20_percent b rest :
  0 <= b < 256 →
  replace_pct20 (percent b ++ rest)
  = (if b =? 32 then [43] else percent b) ++ replace_pct20 rest.
Proof.
  intros Hb. unfold percent. cbn [app]. rewrite replace_pct20_three.
  destruct (b =? 32) eqn:E; bool_to_prop.
  - subst b. done.
  - replace ((37 =? 37) && (hex_digit (b / 16) =? 50) && (hex_digit (b mod 16) =? 48))
      with false.
    2:{ symmetry. rewrite Z.eqb_refl. cbn [andb]. apply andb_false_iff.
        rewrite !Z.eqb_neq. unfold hex_digit.
        repeat case_match; bool_to_prop; zlia. }
    rewrite !replace_pct20_literal by (apply hex_digit_not_percent; zlia). done.
Qed.

Lemma replace_pct20_percent_all bs rest :
  Forall (λ b, 0 <= b < 256) bs → 32 ∉ bs →
  replace_pct20 (percent_all bs ++ rest) = percent_all bs ++ replace_pct20 rest.
Proof.
  induction 1 as [|b bs Hb _ IH]; [done|]. intros [Hne Hbs]%not_elem_of_cons.
  change (percent_all (b :: bs)) with (percent b ++ percent_all bs).
  rewrite <- app_assoc, replace_pct20_percent, IH by done.
  by replace (b =? 32) with false by (symmetry; apply Z.eqb_neq; congruence).
Qed.

Lemma utf8_octets_no_space cp : is_scalar cp → cp ≠ 32 → 32 ∉ utf8_octets cp.
Proof.
  intros [Hr Hs] Hne. unfold utf8_octets.
  repeat case_match; bool_to_prop; rewrite ?elem_of_cons, elem_of_nil; zlia.
Qed.

Lemma replace_char_percent_all c by_ bs :
  c = 43 ∨ c = 32 → Forall (λ b, 0 <= b < 256) bs →
  replace_char c by_ (percent_all bs) = percent_all bs.
Proof.
  intros Hc Hbs. apply replace_char_id. intros Hin.
  apply percent_all_chars in Hbs. eapply Forall_forall in Hbs; [|exact Hin].
  destruct Hbs as [Hu|Heq], Hc as [-> | ->]; (by vm_compute in Hu) || lia.
Qed.

Lemma replace_char_cons c by_ x s :
  replace_char c by_ (x :: s) = (if x =? c then by_ else [x]) ++ replace_char c by_ s.
Proof. done. Qed.

(** What [decode] hands to [decodeURIComponent] after [encode] has put
    ['+'] for ['%20'], and what comes out: the text itself when ['+'] is
    read as a space, the text with ['+'] for its spaces when it is not. *)
Lemma roundtrip_plus (as_space : bool) t :
  Forall is_code_unit t → well_formed t = true →
  ∃ e, encodeURIComponent t = Returns e
    ∧ decodeURIComponent
        (plus_substituted {| plusAsSpace := as_space |} (replace_pct20 (rfc3986 e)))
      = Returns (if as_space then t else space_to_plus t).
Proof.
  unfold plus_substituted, plus_to_space, space_to_plus. cbn [plusAsSpace].
  set (g := λ x : jsstring, if as_space then replace_char 43 [32] x else x).
  set (r := λ x : jsstring, if as_space then x else replace_char 32 [43] x).
  assert (∀ c x, c ≠ 43 → g (c :: x) = c :: g x) as Hg_lit.
  { intros c x Hc. unfold g. destruct as_space; [|done].
    rewrite replace_char_cons.
    by replace (c =? 43) with false by (symmetry; apply Z.eqb_neq; done). }
  assert (∀ bs x, Forall (λ b, 0 <= b < 256) bs →
            g (percent_all bs ++ x) = percent_all bs ++ g x) as Hg_esc.
  { intros bs x Hbs. unfold g. destruct as_space; [|done].
    by rewrite replace_char_app, replace_char_percent_all by auto. }
  assert (∀ c x, c ≠ 32 → r (c :: x) = c :: r x) as Hr_lit.
  { intros c x Hc. unfold r. destruct as_space; [done|].
    rewrite replace_char_cons.
    by replace (c =? 32) with false by (symmetry; apply Z.eqb_neq; done). }
  assert (∀ cp e t',
            is_scalar cp → cp ≠ 32 →
            decodeURIComponent (g (replace_pct20 (rfc3986 e))) = Returns (r t') →
            decodeURIComponent
              (g (replace_pct20 (rfc3986 (percent_all (utf8_octets cp) ++ e))))
            = Returns (UTF16EncodeCodePoint cp ++ r t')) as Hesc.
  { intros cp e t' Hcp Hne He.
    pose proof (utf8_octets_range cp Hcp) as Hrange.
    rewrite rfc3986_app, rfc3986_percent_all, replace_pct20_percent_all, Hg_esc
      by (done || by apply utf8_octets_no_space).
    by rewrite decodeURIComponent_escapes, He. }
  intros Hu Hw. revert Hu. change (if as_space then t else replace_char 32 [43] t) with (r t).
  change (if as_space
          then replace_char 43 [32] (replace_pct20 (rfc3986 ?e))
          else replace_pct20 (rfc3986 ?e)) with (g (replace_pct20 (rfc3986 e))).
  pattern t. revert t Hw. apply well_formed_ind.
  - intros _. exists []. split; [done|]. unfold g, r. by destruct as_space.
  - intros c rest Hl Ht _ IH [Hc Hrest]%Forall_cons.
    destruct (IH Hrest) as (e & He & Hdec). clear IH.
    destruct (unit_is_scalar c Hc Hl Ht) as [Hs Hbmp].
    cbn [encodeURIComponent]. rewrite Hl, Ht, He.
    destruct (uriUnescaped c) eqn:Hun.
    + exists (c :: e). split; [done|].
      pose proof (uriUnescaped_ascii c Hun) as [Hrange Hpct].
      assert (c ≠ 43) as H43 by (intros ->; done).
      rewrite Hr_lit by lia. change (c :: e) with ([c] ++ e).
      destruct (extra_reserved c) eqn:Hx.
      * rewrite rfc3986_app, rfc3986_extra, <- (rfc3986_percent_all (utf8_octets c)),
          <- rfc3986_app by (done || by apply utf8_octets_range).
        rewrite (Hesc c e rest) by (done || lia). by rewrite UTF16Encode_unit.
      * rewrite rfc3986_app, (rfc3986_id [c]) by by apply Forall_singleton.
        cbn [app]. rewrite replace_pct20_literal, Hg_lit by done.
        by rewrite decodeURIComponent_literal, Hdec.
    + eexists. split; [done|]. destruct (decide (c = 32)) as [->|Hne].
      * change (percent_all (utf8_octets 32)) with (percent 32).
        rewrite rfc3986_app, (rfc3986_id (percent 32)) by (by repeat apply Forall_cons_2).
        rewrite replace_pct20_percent by lia. cbn [Z.eqb Pos.eqb app].
        unfold g at 1, r at 1. destruct as_space.
        -- rewrite replace_char_cons. cbn [Z.eqb Pos.eqb app].
           rewrite decodeURIComponent_literal by lia. fold (g (replace_pct20 (rfc3986 e))).
           by rewrite Hdec.
        -- rewrite replace_char_cons. cbn [Z.eqb Pos.eqb app].
           rewrite decodeURIComponent_literal by lia.
           fold (g (replace_pct20 (rfc3986 e))). fold (r rest). by rewrite Hdec.
      * rewrite Hr_lit by done. rewrite (Hesc c e rest) by done.
        by rewrite UTF16Encode_unit.
  - intros c c2 rest Hl Ht _ IH (Hc & (Hc2 & Hrest)%Forall_cons)%Forall_cons.
    destruct (IH Hrest) as (e & He & Hdec). clear IH.
    destruct (pair_is_scalar c c2 Hl Ht) as [Hs Hbig].
    cbn [encodeURIComponent]. rewrite Hl, Ht, He.
    replace (uriUnescaped c) with false.
    2:{ symmetry. apply not_true_is_false. intros [? ?]%uriUnescaped_ascii.
        apply between_spec in Hl. lia. }
    eexists. split; [done|]. apply between_spec in Hl, Ht.
    rewrite !Hr_lit by lia. rewrite (Hesc _ e rest) by (done || lia).
    by rewrite UTF16Encode_pair by (by apply between_spec).
Qed.

Lemma plus_to_space_field_chars e :
  Forall (λ c, field_char c = true) e → plus_to_space e = e.
Proof.
  intros He. apply replace_char_id. intros Hin.
  eapply Forall_forall in He; [|exact Hin]. by vm_compute in He.
Qed.

(** What [decode] with [plusAsSpace] returns on the result of [encode],
    whatever [plusForSpace] and [strict] were (no allowed character). *)
Lemma decode_text_plus_encode t (plus strict_ : bool) e :
  text t →
  encode (VString t) {| plusForSpace := plus; strict := strict_; allowedChars := [] |}
    = Returns e →
  decode_text {| plusAsSpace := true |} e = t.
Proof.
  intros [Hu Hw] He.
  assert (encode (VString t)
            {| plusForSpace := plus; strict := false; allowedChars := [] |} = Returns e)
    as He' by (destruct strict_; [by rewrite <- encode_strict_eq|done]).
  clear He. revert He'. cbn [encode strict plusForSpace]. unfold decode_text.
  destruct plus.
  - destruct (roundtrip_plus true t Hu Hw) as (e0 & -> & Hdec).
    intros [= <-]. by rewrite Hdec.
  - destruct (encodeURIComponent t) as [e0|] eqn:He0; [|done]. intros [= <-].
    unfold plus_substituted. cbn [plusAsSpace].
    rewrite plus_to_space_field_chars
      by (eapply rfc3986_chars, encodeURIComponent_chars; done).
    by rewrite (decodeURIComponent_rfc3986 t e0).
Qed.

(** X6: [decode] with [plusAsSpace] undoes [encode] under either space
    convention and with or without [strict] (no allowed character): for
    every text [t], [encode] returns some [e] and
    [decode(e, {plusAsSpace: true})] returns [t]. *)
Theorem decode_plusAsSpace_undoes_encode (t : jsstring) (plus strict_ : bool) :
  text t →
  ∃ e, encode (VString t)
         {| plusForSpace := plus; strict := strict_; allowedChars := [] |} = Returns e
       ∧ decode (VString e) {| plusAsSpace := true |} = Returns t.
Proof.
  intros Ht.
  destruct (encode_returns t {| plusForSpace := plus; strict := strict_;
                                allowedChars := [] |} (proj2 Ht)) as [e He].
  exists e. split; [done|].
  by rewrite decode_decode_text, (decode_text_plus_encode t plus strict_ e).
Qed.

Lemma decode_plusAsSpace_undoes_encode_witness :
  ∃ e, encode (VString (js "a b+c"))
         {| plusForSpace := true; strict := true; allowedChars := [] |} = Returns e
       ∧ decode (VString e) {| plusAsSpace := true |} = Returns (js "a b+c").
Proof.
  apply (decode_plusAsSpace_undoes_encode (js "a b+c") true true).
  split; [repeat constructor; unfold is_code_unit; lia|reflexivity].
Defined.

(** X7: read without [plusAsSpace], a text encoded with [plusForSpace]
    comes back with a ['+'] for each of its spaces (and its own ['+']
    intact, so the two can no longer be told apart). *)
Theorem decode_default_of_plusForSpace (t : jsstring) :
  text t →
  ∃ e, encode (VString t)
         {| plusForSpace := true; strict := false; allowedChars := [] |} = Returns e
       ∧ decode (VString e) default_decode = Returns (space_to_plus t).
Proof.
  intros [Hu Hw]. destruct (roundtrip_plus false t Hu Hw) as (e0 & He0 & Hdec).
  exists (replace_pct20 (rfc3986 e0)). split.
  - cbn [encode strict plusForSpace]. by rewrite He0.
  - cbn [decode default_decode plusAsSpace]. unfold plus_substituted in Hdec.
    cbn [plusAsSpace] in Hdec. by rewrite Hdec.
Qed.

Lemma decode_default_of_plusForSpace_witness :
  ∃ e, encode (VString (js "a b+c"))
         {| plusForSpace := true; strict := false; allowedChars := [] |} = Returns e
       ∧ decode (VString e) default_decode = Returns (space_to_plus (js "a b+c")).
Proof.
  apply (decode_default_of_plusForSpace (js "a b+c")).
  split; [repeat constructor; unfold is_code_unit; lia|reflexivity].
Defined.

(** X8: distinct texts have distinct encodings, under either space
    convention and with or without [strict] (no allowed character). *)
Theorem encode_injective (t1 t2 e : jsstring) (plus strict_ : bool) :
  text t1 → text t2 →
  encode (VString t1)
    {| plusForSpace := plus; strict := strict_; allowedChars := [] |} = Returns e →
  encode (VString t2)
    {| plusForSpace := plus; strict := strict_; allowedChars := [] |} = Returns e →
  t1 = t2.
Proof.
  intros Ht1 Ht2 H1 H2.
  rewrite <- (decode_text_plus_encode t1 plus strict_ e Ht1 H1).
  by rewrite (decode_text_plus_encode t2 plus strict_ e Ht2 H2).
Qed.

Lemma encode_injective_witness : js "a b" = js "a b".
Proof.
  apply (encode_injective (js "a b") (js "a b") (js "a+b") true false).
  - split; [repeat constructor; unfold is_code_unit; lia|reflexivity].
  - split; [repeat constructor; unfold is_code_unit; lia|reflexivity].
  - reflexivity.
  - reflexivity.
Defined.

(** ** Plain text *)

(** X9: a string with no ['%'] decodes to itself, or, with [plusAsSpace],
    to itself with a space for each ['+']. *)
Theorem decode_without_percent (s : jsstring) (options : DecodeOptions) :
  37 ∉ s → decode (VString s) options = Returns (plus_substituted options s).
Proof.
  intros Hs. rewrite decode_decode_text. unfold decode_text.
  rewrite decodeURIComponent_plain; [done|].
  unfold plus_substituted, plus_to_space, replace_char.
  destruct (plusAsSpace options); [|done].
  intros (c & Hin & Hc)%list_elem_of_bind.
  destruct (c =? 43); apply list_elem_of_singleton in Hin; [done|by subst c].
Qed.

Lemma decode_without_percent_witness :
  decode (VString (js "a+b c")) {| plusAsSpace := true |}
  = Returns (plus_substituted {| plusAsSpace := true |} (js "a+b c")).
Proof.
  apply (decode_without_percent (js "a+b c") {| plusAsSpace := true |}).
  vm_compute. intros H. repeat (apply elem_of_cons in H as [H|H]; [discriminate|]).
  by apply elem_of_nil in H.
Defined.

(** ** The length of an encoding *)

Lemma utf8_octets_length cp :
  (1 <= length (utf8_octets cp) <= 4)%nat
  ∧ (cp < 0x10000 → (length (utf8_octets cp) <= 3)%nat).
Proof. unfold utf8_octets. repeat case_match; bool_to_prop; cbn [length]; lia. Qed.

Lemma rfc3986_unit_length c : (1 <= length (rfc3986 [c]) <= 3)%nat.
Proof.
  destruct (extra_reserved c) eqn:Hx.
  - rewrite rfc3986_extra, percent_all_length by done.
    revert Hx. unfold extra_reserved.
    rewrite bool_decide_eq_true, !elem_of_cons, elem_of_nil.
    intros [->|[->|[->|[->|[->|[]]]]]]; cbn; lia.
  - rewrite rfc3986_id by by apply Forall_singleton. cbn [length]. lia.
Qed.

Lemma encode_default_length t e :
  Forall is_code_unit t → encode (VString t) default_encode = Returns e →
  (length t <= length e <= 9 * length t)%nat.
Proof.
  intros Hu. rewrite encode_default. intros (e' & He' & ->)%fmap_Returns_inv.
  assert (well_formed t = true) as Hw.
  { pose proof (encodeURIComponent_well_formed t) as H. by rewrite He' in H. }
  revert e' Hu He'. pattern t. revert t Hw. apply well_formed_ind.
  - by intros e' _ [= <-].
  - intros c rest Hl Ht _ IH e' [Hc Hrest]%Forall_cons.
    destruct (unit_is_scalar c Hc Hl Ht) as [Hs Hbmp].
    cbn [encodeURIComponent]. rewrite Hl, Ht.
    destruct (uriUnescaped c) eqn:Hun; intros (e0 & He0 & ->)%fmap_Returns_inv;
      specialize (IH e0 Hrest He0).
    + change (c :: e0) with ([c] ++ e0). rewrite rfc3986_app, length_app.
      pose proof (rfc3986_unit_length c). cbn [length]. lia.
    + rewrite rfc3986_app, length_app, rfc3986_percent_all, percent_all_length
        by by apply utf8_octets_range.
      destruct (utf8_octets_length c) as [? Hle]. specialize (Hle ltac:(lia)).
      cbn [length]. lia.
  - intros c c2 rest Hl Ht _ IH e' (Hc & (Hc2 & Hrest)%Forall_cons)%Forall_cons.
    destruct (pair_is_scalar c c2 Hl Ht) as [Hs _].
    cbn [encodeURIComponent]. rewrite Hl, Ht.
    destruct (uriUnescaped c) eqn:Hun.
    { apply uriUnescaped_ascii in Hun. apply between_spec in Hl. lia. }
    intros (e0 & He0 & ->)%fmap_Returns_inv. specialize (IH e0 Hrest He0).
    rewrite rfc3986_app, length_app, rfc3986_percent_all, percent_all_length
      by by apply utf8_octets_range.
    destruct (utf8_octets_length (UTF16SurrogatePairToCodePoint c c2)) as [? _].
    cbn [length]. lia.
Qed.

(** X10: under the default options the result of [encode] is never
    shorter than its argument and at most nine times as long (in code
    units). *)
Theorem encode_length_bounds (t e : jsstring) :
  Forall is_code_unit t → encode (VString t) default_encode = Returns e →
  (length t <= length e <= 9 * length t)%nat.
Proof. apply encode_default_length. Qed.

Lemma encode_length_bounds_witness :
  (length [0x4F60; 0x597D]%Z <= length (js "%E4%BD%A0%E5%A5%BD")
   <= 9 * length [0x4F60; 0x597D]%Z)%nat.
Proof.
  apply (encode_length_bounds [0x4F60; 0x597D] (js "%E4%BD%A0%E5%A5%BD")).
  - repeat constructor; unfold is_code_unit; lia.
  - reflexivity.
Defined.

(** ** Duplicate keys in a query string *)

Lemma decode_pairs_snoc options pairs pair :
  decode_pairs options (pairs ++ [pair])
  = object_set (decode_pairs options pairs)
      (decode_text options (pair_key pair)) (decode_text options (pair_value pair)).
Proof. unfold decode_pairs. by rewrite foldl_app. Qed.

Lemma decode_pairs_lookup options pairs k :
  k ≠ js "__proto__" →
  decode_pairs options pairs !! k
  = (λ pair, decode_text options (pair_value pair))
      <$> last (filter (λ pair, decode_text options (pair_key pair) = k) pairs).
Proof.
  intros Hk. induction pairs as [|pair pairs IH] using rev_ind; [done|].
  rewrite decode_pairs_snoc, filter_app. unfold object_set.
  rewrite filter_cons, filter_nil.
  case_decide as Hkey.
  - rewrite Hkey, bool_decide_eq_false_2, lookup_insert_eq by done.
    by rewrite last_snoc.
  - rewrite app_nil_r, <- IH. case_bool_decide; [done|].
    by rewrite lookup_insert_ne.
Qed.

(** X11: for every key other than ["__proto__"], the value [decodeQuery]
    returns is that of the last pair with this (decoded) key, and the key
    is absent exactly when no pair has it. *)
Theorem decodeQuery_last_pair_wins (queryString : jsstring) (options : DecodeOptions)
    (k : jsstring) :
  k ≠ js "__proto__" →
  ∃ result, decodeQuery queryString options = Returns result
    ∧ result !! k
      = (λ pair, decode_text options (pair_value pair))
          <$> last (filter (λ pair, decode_text options (pair_key pair) = k)
                           (query_pairs queryString)).
Proof.
  intros Hk. eexists. split; [apply decodeQuery_pairs|].
  by apply decode_pairs_lookup.
Qed.

Lemma decodeQuery_last_pair_wins_witness :
  ∃ result, decodeQuery (js "a=1&b=2&a=3") default_decode = Returns result
    ∧ result !! js "a"
      = (λ pair, decode_text default_decode (pair_value pair))
          <$> last (filter (λ pair, decode_text default_decode (pair_key pair) = js "a")
                           (query_pairs (js "a=1&b=2&a=3"))).
Proof.
  apply (decodeQuery_last_pair_wins (js "a=1&b=2&a=3") default_decode (js "a")).
  discriminate.
Defined.

(** ** When [encodeQuery] returns *)

Lemma encodeQuery_entry_cases {number} (Number_toString : number → jsstring)
    options (key : jsstring) (value : query_value number) :
  (well_formed key = true ∧ well_formed (String_ Number_toString value) = true
   ∧ returns (encodedKey ← encode (VString key) options;
              encodedValue ← encode (VString (String_ Number_toString value)) options;
              Returns (encodedKey ++ js "=" ++ encodedValue)))
  ∨ ((well_formed key = false ∨ well_formed (String_ Number_toString value) = false)
     ∧ (encodedKey ← encode (VString key) options;
        encodedValue ← encode (VString (String_ Number_toString value)) options;
        Returns (encodedKey ++ js "=" ++ encodedValue)) = Throws URIError).
Proof.
  destruct (well_formed key) eqn:Hk.
  - destruct (encode_returns key options Hk) as [ek ->]. cbn [mbind completion_bind].
    destruct (well_formed (String_ Number_toString value)) eqn:Hv.
    + destruct (encode_returns _ options Hv) as [ev ->]. left. split_and!; [done..|].
      by eexists.
    + right. split; [by right|]. by rewrite (encode_throws _ options Hv).
  - right. split; [by left|]. by rewrite (encode_throws _ options Hk).
Qed.

(** X12: [encodeQuery] returns exactly when no key and no stringified
    value has an unpaired surrogate; otherwise it raises the URIError of
    [encodeURIComponent].  It returns the empty string for no entry. *)
Theorem encodeQuery_returns_iff {number : Type} (Number_toString : number → jsstring)
    (params : list (jsstring * query_value number)) (options : EncodeOptions) :
  (returns (encodeQuery Number_toString params options)
   ∨ encodeQuery Number_toString params options = Throws URIError)
  ∧ (returns (encodeQuery Number_toString params options)
     ↔ Forall (λ kv, well_formed kv.1 = true
                     ∧ well_formed (String_ Number_toString kv.2) = true) params)
  ∧ encodeQuery Number_toString [] options = Returns [].
Proof.
  unfold encodeQuery.
  set (f := λ '(key, value),
              encodedKey ← encode (VString key) options;
              encodedValue ← encode (VString (String_ Number_toString value)) options;
              Returns (encodedKey ++ js "=" ++ encodedValue)).
  assert ((returns (mapM f params)
           ∧ Forall (λ kv, well_formed kv.1 = true
                        ∧ well_formed (String_ Number_toString kv.2) = true) params)
          ∨ (mapM f params = Throws URIError
             ∧ ¬ Forall (λ kv, well_formed kv.1 = true
                          ∧ well_formed (String_ Number_toString kv.2) = true) params))
    as Hcases.
  { induction params as [|[key value] params IH].
    - left. split; [by exists []|constructor].
    - rewrite mapM_cons.
      destruct (encodeQuery_entry_cases Number_toString options key value)
        as [(Hk & Hv & [field Hfield])|[Hbad Hthrow]].
      + replace (f (key, value)) with (Returns field)
          by (symmetry; exact Hfield).
        cbn [mbind completion_bind].
        destruct IH as [[[fields ->] Hall]|[-> Hnot]].
        * left. split; [by eexists|by constructor].
        * right. split; [done|]. by intros [_ ?]%Forall_cons.
      + replace (f (key, value)) with (Throws (A := jsstring) URIError)
          by (symmetry; exact Hthrow).
        right. split; [done|].
        intros [[? ?] _]%Forall_cons. cbn [fst snd] in *.
        destruct Hbad; congruence. }
  split_and!; [| |done].
  - destruct Hcases as [[[fields ->] _]|[-> _]]; [left; by eexists|by right].
  - destruct Hcases as [[[fields ->] Hall]|[-> Hnot]].
    + split; [done|]. intros _. by eexists.
    + split; [by intros [? ?]|done].
Qed.

(** ** The query round trip under other options *)

Lemma replace_pct20_Forall (P : Z → Prop) s :
  P 43 → Forall P s → Forall P (replace_pct20 s).
Proof.
  intros H43. remember (length s) as n eqn:Hn. revert s Hn.
  induction n as [n IH] using lt_wf_ind. intros s -> Hs.
  destruct s as [|c [|c2 [|c3 rest]]]; [done..|].
  rewrite replace_pct20_three.
  apply Forall_cons in Hs as [Hc Hs]. pose proof Hs as Hs'.
  apply Forall_cons in Hs' as [_ [_ Hrest]%Forall_cons].
  case_match.
  - constructor; [done|]. eapply IH; [|done..]. cbn [length]. lia.
  - constructor; [done|]. eapply IH; [|done..]. cbn [length]. lia.
Qed.

Lemma encode_reserved_free t (plus strict_ : bool) e :
  Forall is_code_unit t →
  encode (VString t) {| plusForSpace := plus; strict := strict_; allowedChars := [] |}
    = Returns e →
  reserved_free e.
Proof.
  intros Hu He.
  assert (encode (VString t)
            {| plusForSpace := plus; strict := false; allowedChars := [] |} = Returns e)
    as He' by (destruct strict_; [by rewrite <- encode_strict_eq|done]).
  clear He. revert He'. cbn [encode strict plusForSpace].
  destruct (encodeURIComponent t) as [e0|] eqn:He0; [|done].
  cbn [mbind completion_bind]. intros [= <-].
  assert (reserved_free (rfc3986 e0)) as Hfree.
  { eapply Forall_impl; [eapply rfc3986_chars, encodeURIComponent_chars; done|].
    intros c. apply field_char_not_reserved. }
  destruct plus; [|done]. apply replace_pct20_Forall; [lia|done].
Qed.

Lemma inverse_options_plusAsSpace (plus strict_ : bool) :
  inverse_options {| plusForSpace := plus; strict := strict_; allowedChars := [] |}
                  {| plusAsSpace := true |}.
Proof.
  intros t e Ht He. split.
  - destruct Ht. by eapply encode_reserved_free.
  - by eapply decode_text_plus_encode.
Qed.

Lemma inverse_options_default : inverse_options default_encode default_decode.
Proof.
  intros t e [Hu Hw] He. split.
  - by eapply (encode_reserved_free t false false).
  - by apply decode_text_encode.
Qed.

Lemma reserved_free_not_elem s c :
  reserved_free s → c = 38 ∨ c = 61 ∨ c = 63 → c ∉ s.
Proof.
  intros Hs Hc Hin. eapply Forall_forall in Hs; [|exact Hin]. cbn in Hs. lia.
Qed.

Section query_under.
Context {number : Type} (Number_toString : number → jsstring).
Context (eopts : EncodeOptions) (dopts : DecodeOptions).
Hypothesis inverse : inverse_options eopts dopts.

Lemma encodeQuery_fields_under (params : list (jsstring * query_value number)) :
  Forall (λ kv, text kv.1 ∧ text (String_ Number_toString kv.2)) params →
  ∃ fields,
    mapM (λ '(key, value),
            encodedKey ← encode (VString key) eopts;
            encodedValue ← encode (VString (String_ Number_toString value)) eopts;
            Returns (encodedKey ++ js "=" ++ encodedValue)) params
    = Returns fields
    ∧ Forall2 (field_under Number_toString dopts) params fields.
Proof.
  induction 1 as [|[k v] params [Hk Hv] _ (fields & Hfields & IH)].
  - exists []. by split.
  - cbn [fst snd] in *. rewrite mapM_cons, Hfields.
    destruct (encode_returns k eopts (proj2 Hk)) as [ek Hek].
    destruct (encode_returns (String_ Number_toString v) eopts (proj2 Hv)) as [ev Hev].
    rewrite Hek, Hev. eexists. split; [done|]. constructor; [|done].
    destruct (inverse _ _ Hk Hek) as [? ?], (inverse _ _ Hv Hev) as [? ?].
    by exists ek, ev.
Qed.

Lemma field_under_pair (kv : jsstring * query_value number) (field : jsstring) :
  field_under Number_toString dopts kv field →
  (38 ∉ field) ∧ (63 ∉ field) ∧ field ≠ []
  ∧ decode_text dopts (pair_key field) = kv.1
  ∧ decode_text dopts (pair_value field) = String_ Number_toString kv.2.
Proof.
  intros (ek & ev & -> & Hek & Hev & Hk & Hv).
  assert (∀ c, c = 38 ∨ c = 61 ∨ c = 63 → c ∉ ek) as Hnk
    by (intros; by eapply reserved_free_not_elem).
  assert (∀ c, c = 38 ∨ c = 61 ∨ c = 63 → c ∉ ev) as Hnv
    by (intros; by eapply reserved_free_not_elem).
  change (ek ++ js "=" ++ ev) with (ek ++ 61 :: ev).
  unfold pair_key, pair_value.
  rewrite before_app, after_app, before_not_elem by (apply Hnk || apply Hnv; lia).
  split_and!; [| |by destruct ek|done..].
  - rewrite elem_of_app, elem_of_cons.
    intros [?|[?|?]]; [by eapply Hnk; [|done]; lia|lia|by eapply Hnv; [|done]; lia].
  - rewrite elem_of_app, elem_of_cons.
    intros [?|[?|?]]; [by eapply Hnk; [|done]; lia|lia|by eapply Hnv; [|done]; lia].
Qed.

Lemma decode_pairs_fields_under (params : list (jsstring * query_value number))
    (fields : list jsstring) (m : gmap jsstring jsstring) :
  Forall2 (field_under Number_toString dopts) params fields →
  foldl (λ result pair,
           object_set result (decode_text dopts (pair_key pair))
                             (decode_text dopts (pair_value pair)))
        m fields
  = foldl (λ result kv, object_set result kv.1 kv.2) m
      (prod_map id (String_ Number_toString) <$> params).
Proof.
  intros H. revert m. induction H as [|kv field params fields Hf _ IH]; intros m; [done|].
  destruct (field_under_pair _ _ Hf) as (_ & _ & _ & Hk & Hv).
  cbn [foldl fmap list_fmap]. rewrite Hk, Hv. destruct kv as [k v]. apply IH.
Qed.

Lemma query_pairs_join_under (fields : list jsstring)
    (params : list (jsstring * query_value number)) :
  Forall2 (field_under Number_toString dopts) params fields →
  query_pairs (join (js "&") fields) = fields.
Proof.
  intros H. destruct H as [|kv field params fields Hf H]; [done|].
  assert (Forall (λ p, 38 ∉ p) (field :: fields)) as Hall.
  { constructor; [by apply field_under_pair in Hf as (? & _)|].
    eapply Forall2_Forall_r; [exact H|]. apply Forall_true.
    intros kv' f' Hf'. by apply field_under_pair in Hf' as (? & _). }
  pose proof (split_join 38 (field :: fields) ltac:(done) Hall) as Hsplit.
  change (js "&") with [38]. unfold query_pairs.
  destruct (join [38] (field :: fields)) as [|c rest] eqn:Hj.
  { destruct (field_under_pair _ _ Hf) as (_ & _ & Hne & _).
    cbn [join] in Hj. destruct fields; [done|]. by destruct field. }
  assert (c ≠ 63) as Hc.
  { destruct (field_under_pair _ _ Hf) as (_ & H63 & Hne & _).
    destruct field as [|c' field]; [done|].
    assert (c = c') as -> by (cbn [join] in Hj; destruct fields; by injection Hj).
    intros ->. apply H63. left. }
  by replace (c =? 63) with false by (symmetry; apply Z.eqb_neq; done).
Qed.

(** Whatever the keys, the object read back is the one built by
    assigning each entry in order. *)
Lemma query_assigned_under (params : list (jsstring * query_value number)) :
  Forall (λ kv, text kv.1 ∧ text (String_ Number_toString kv.2)) params →
  ∃ e, encodeQuery Number_toString params eopts = Returns e
    ∧ decodeQuery e dopts
      = Returns (foldl (λ result kv, object_set result kv.1 kv.2) ∅
                   (prod_map id (String_ Number_toString) <$> params)).
Proof.
  intros Hall. destruct (encodeQuery_fields_under params Hall) as (fields & Hfields & Hf).
  exists (join (js "&") fields). split.
  - unfold encodeQuery. by rewrite Hfields.
  - rewrite decodeQuery_pairs, (query_pairs_join_under fields params) by done.
    unfold decode_pairs. by rewrite (decode_pairs_fields_under params).
Qed.

Lemma query_roundtrip_under (params : list (jsstring * query_value number)) :
  NoDup params.*1 →
  Forall (λ kv, kv.1 ≠ js "__proto__" ∧ text kv.1
                ∧ text (String_ Number_toString kv.2)) params →
  ∃ e, encodeQuery Number_toString params eopts = Returns e
    ∧ decodeQuery e dopts = Returns (String_ Number_toString <$> list_to_map params).
Proof.
  intros Hnd Hall.
  destruct (query_assigned_under params) as (e & He & Hd).
  { eapply Forall_impl; [exact Hall|]. by intros kv (_ & ? & ?). }
  exists e. split; [done|]. rewrite Hd. clear Hd He. f_equal.
  rewrite <- list_to_map_fmap.
  rewrite <- foldl_insert_list_to_map by (by rewrite fst_prod_map).
  assert (Forall (λ kv : jsstring * jsstring, kv.1 ≠ js "__proto__")
            (prod_map id (String_ Number_toString) <$> params)) as Hproto.
  { apply Forall_fmap. eapply Forall_impl; [exact Hall|]. by intros [] (? & _). }
  generalize (∅ : gmap jsstring jsstring).
  induction Hproto as [|kv l Hkv _ IH]; intros m; [done|].
  cbn [foldl]. rewrite object_set_insert by done. apply IH.
Qed.

End query_under.

(** X13: the query round trip holds under either space convention and
    with or without [strict] when the reader takes ['+'] for a space: for an
    object whose keys are not ["__proto__"] and whose keys and stringified
    values are text, [decodeQuery(encodeQuery(params, options),
    {plusAsSpace: true})] maps each key to [String(value)]. *)
Theorem query_roundtrip_plusAsSpace {number : Type} (Number_toString : number → jsstring)
    (params : list (jsstring * query_value number)) (plus strict_ : bool) :
  NoDup params.*1 →
  Forall (λ kv, kv.1 ≠ js "__proto__" ∧ text kv.1
                ∧ text (String_ Number_toString kv.2)) params →
  ∃ e,
    encodeQuery Number_toString params
      {| plusForSpace := plus; strict := strict_; allowedChars := [] |} = Returns e
    ∧ decodeQuery e {| plusAsSpace := true |}
      = Returns (String_ Number_toString <$> list_to_map params).
Proof.
  apply query_roundtrip_under, inverse_options_plusAsSpace.
Qed.

Lemma query_roundtrip_plusAsSpace_witness :
  ∃ e,
    encodeQuery integer_toString
      [(js "full name", QString (js "John Doe")); (js "age", QNumber 25)]
      {| plusForSpace := true; strict := false; allowedChars := [] |} = Returns e
    ∧ decodeQuery e {| plusAsSpace := true |}
      = Returns (String_ integer_toString <$>
                   list_to_map [(js "full name", QString (js "John Doe"));
                                (js "age", QNumber 25)]).
Proof.
  apply (query_roundtrip_plusAsSpace integer_toString).
  - cbn. repeat constructor; rewrite ?elem_of_cons, ?elem_of_nil; intros H;
      repeat destruct H as [H|H]; done.
  - repeat constructor; cbn; unfold is_code_unit; try lia; discriminate.
Defined.

(** ** The query and the fragment written by [encodeUrl] *)

Lemma well_formed_ascii s : Forall is_ascii s → well_formed s = true.
Proof.
  induction 1 as [|c s Hc _ IH]; [done|]. by rewrite well_formed_ascii_cons.
Qed.

Lemma field_char_ascii c : field_char c = true → is_ascii c.
Proof.
  unfold field_char, uriUnescaped, is_alpha, is_digit, uriMark, is_ascii.
  rewrite orb_true_iff, andb_true_iff, !orb_true_iff, !between_spec,
    bool_decide_eq_true, !elem_of_cons, elem_of_nil, Z.eqb_eq.
  lia.
Qed.

Lemma encodeUrl_fragment (hash : jsstring) :
  Forall is_ascii hash →
  ∃ fragment,
    match hash with
    | [] => Returns []
    | _ :: _ =>
        try_catch
          (decodedHash ← decodeURIComponent (drop 1 hash);
           h ← encode (VString decodedHash) default_encode;
           Returns (js "#" ++ h))
          (λ _,
           h ← encode (VString (drop 1 hash)) default_encode;
           Returns (js "#" ++ h))
    end = Returns fragment
    ∧ match hash with
      | [] => fragment = []
      | _ :: raw => ∃ h, fragment = js "#" ++ h ∧ reencoded_fragment raw h
      end.
Proof.
  intros Hhash. destruct hash as [|c raw]; [by exists []|].
  apply Forall_cons in Hhash as [_ Hraw]. cbn [drop]. rewrite drop_0.
  unfold reencoded_fragment.
  destruct (decodeURIComponent raw) as [decoded|e] eqn:Hdec.
  - apply Decode_ascii_well_formed in Hdec; [|done].
    destruct (encode_returns decoded default_encode Hdec) as [h Hh].
    exists (js "#" ++ h). cbn [mbind completion_bind]. rewrite Hh. eauto.
  - destruct (encode_returns raw default_encode (well_formed_ascii raw Hraw)) as [h Hh].
    exists (js "#" ++ h). cbn [mbind completion_bind try_catch]. rewrite Hh. eauto.
Qed.

(** The fields [encodeUrl] writes are those [encodeQuery] writes for the
    search parameters taken as string values. *)
Lemma encodeUrl_fields (l : list (jsstring * jsstring)) :
  mapM (λ '(key, value),
          k ← encode (VString key) default_encode;
          v ← encode (VString value) default_encode;
          Returns (k ++ js "=" ++ v)) l
  = mapM (λ '(key, value),
            encodedKey ← encode (VString key) default_encode;
            encodedValue ← encode (VString (String_ integer_toString value))
                             default_encode;
            Returns (encodedKey ++ js "=" ++ encodedValue))
      (prod_map id QString <$> l).
Proof.
  induction l as [|[k v] l IH]; [done|].
  rewrite fmap_cons, !mapM_cons, IH. done.
Qed.

(** X14: on a URL that parses, with search parameters that are text and
    an ASCII [hash], [encodeUrl] writes after [protocol//host] and
    [pathname] a query that [decodeQuery] reads back as the object built by
    assigning each search parameter in order, and no ['?'] at all when
    there is no search parameter. *)
Theorem encodeUrl_query_decodes (new_URL : jsstring → option (completion URL))
    (url : jsstring) (urlObj : URL) :
  new_URL url = Some (Returns urlObj) →
  Forall (λ kv, text kv.1 ∧ text kv.2) (searchParams urlObj) →
  Forall is_ascii (hash urlObj) →
  ∃ q fragment,
    encodeUrl new_URL (VString url)
    = Some (Returns (URL_base urlObj
                     ++ match searchParams urlObj with
                        | [] => []
                        | _ :: _ => js "?" ++ q
                        end
                     ++ fragment))
    ∧ decodeQuery q default_decode
      = Returns (foldl (λ result kv, object_set result kv.1 kv.2) ∅
                   (searchParams urlObj))
    ∧ (fragment = [] ∨ ∃ h, fragment = js "#" ++ h).
Proof.
  intros Hparse Hparams Hhash.
  destruct (encodeQuery_fields_under integer_toString default_encode default_decode
              inverse_options_default (prod_map id QString <$> searchParams urlObj))
    as (fields & Hfields & Hf).
  { apply Forall_fmap. eapply Forall_impl; [exact Hparams|]. by intros [k v]. }
  rewrite <- encodeUrl_fields in Hfields.
  destruct (encodeUrl_fragment (hash urlObj) Hhash) as (fragment & Hfragment & Hspec).
  exists (join (js "&") fields), fragment. split_and!.
  - cbn [encodeUrl]. rewrite Hparse. cbn [mbind option_bind completion_bind].
    rewrite Hfields. cbn [mbind completion_bind]. rewrite Hfragment.
    cbn [mbind completion_bind try_catch]. unfold URL_base.
    apply Forall2_length in Hf. rewrite length_fmap in Hf.
    by destruct (searchParams urlObj), fields.
  - rewrite decodeQuery_pairs, (query_pairs_join_under integer_toString default_decode
                                  fields _ Hf).
    unfold decode_pairs.
    rewrite (decode_pairs_fields_under integer_toString default_decode _ _ _ Hf).
    rewrite <- list_fmap_compose. do 2 f_equal.
    clear. induction (searchParams urlObj) as [|[k v] l IH]; [done|].
    cbn [fmap list_fmap]. by f_equal.
  - destruct (hash urlObj); [by left|]. destruct Hspec as (h & -> & _). right. by eexists.
Qed.

Lemma encodeUrl_query_decodes_witness :
  ∃ q fragment,
    encodeUrl WHATWG.new_URL
      (VString (js "https://example.com/path?name=John Doe&email=test@example.com"))
    = Some (Returns (js "https://example.com/path" ++ js "?" ++ q ++ fragment))
    ∧ decodeQuery q default_decode
      = Returns (foldl (λ result kv, object_set result kv.1 kv.2) ∅
                   [(js "name", js "John Doe"); (js "email", js "test@example.com")])
    ∧ (fragment = [] ∨ ∃ h, fragment = js "#" ++ h).
Proof.
  apply (encodeUrl_query_decodes WHATWG.new_URL
           (js "https://example.com/path?name=John Doe&email=test@example.com")
           {| protocol := js "https:"; host := js "example.com";
              pathname := js "/path";
              searchParams := [(js "name", js "John Doe");
                               (js "email", js "test@example.com")];
              hash := [] |}).
  - vm_compute; reflexivity.
  - repeat constructor; cbn; unfold is_code_unit; try lia; discriminate.
  - constructor.
Defined.

(** X15: a fragment that is already the encoding of some text is written
    back unchanged.  For a URL that parses with well-formed search
    parameters and [hash] equal to ['#'] followed by [encode(d)] for a text
    [d], the result of [encodeUrl] ends with that very [hash]. *)
Theorem encodeUrl_keeps_encoded_fragment
    (new_URL : jsstring → option (completion URL))
    (url : jsstring) (urlObj : URL) (d e : jsstring) :
  new_URL url = Some (Returns urlObj) →
  Forall (λ kv, well_formed kv.1 = true ∧ well_formed kv.2 = true)
         (searchParams urlObj) →
  text d → encode (VString d) default_encode = Returns e →
  hash urlObj = js "#" ++ e →
  ∃ query,
    encodeUrl new_URL (VString url)
    = Some (Returns (URL_base urlObj ++ query ++ hash urlObj)).
Proof.
  intros Hparse Hparams [Hu Hw] He Hhash.
  assert (Forall is_ascii e) as Hascii.
  { eapply Forall_impl; [by eapply encode_default_chars|]. apply field_char_ascii. }
  assert (URL_text urlObj) as Htext.
  { split; [done|]. rewrite Hhash. change (js "#" ++ e) with (35 :: e).
    constructor; [unfold is_ascii; lia|done]. }
  destruct (encodeUrl_parsed new_URL url urlObj Hparse Htext)
    as (newParams & fragment & _ & Hspec & Hresult).
  rewrite Hhash in Hspec. change (js "#" ++ e) with (35 :: e) in Hspec.
  destruct Hspec as (h & -> & Hh). unfold reencoded_fragment in Hh.
  pose proof He as He'. rewrite encode_default in He'.
  apply fmap_Returns_inv in He' as (e0 & He0 & ->).
  rewrite (decodeURIComponent_rfc3986 d e0 Hu Hw He0) in Hh.
  rewrite He in Hh. injection Hh as <-.
  eexists. rewrite Hresult, Hhash. reflexivity.
Qed.

Lemma encodeUrl_keeps_encoded_fragment_witness :
  ∃ query,
    encodeUrl WHATWG.new_URL (VString (js "https://example.com/docs#a%20b%2Fc"))
    = Some (Returns (js "https://example.com/docs" ++ query ++ js "#a%20b%2Fc")).
Proof.
  apply (encodeUrl_keeps_encoded_fragment WHATWG.new_URL
           (js "https://example.com/docs#a%20b%2Fc")
           {| protocol := js "https:"; host := js "example.com";
              pathname := js "/docs"; searchParams := [];
              hash := js "#a%20b%2Fc" |}
           (js "a b/c") (js "a%20b%2Fc")).
  - vm_compute; reflexivity.
  - constructor.
  - split; [|reflexivity]. repeat constructor; unfold is_code_unit; lia.
  - vm_compute; reflexivity.
  - reflexivity.
Defined.

(** ** What [decode] returns can be encoded again *)

Lemma plus_to_space_ascii s : Forall is_ascii s → Forall is_ascii (plus_to_space s).
Proof.
  induction 1 as [|c s Hc _ IH]; [constructor|].
  unfold plus_to_space in *. rewrite replace_char_cons. apply Forall_app. split; [|done].
  case_match; constructor; [unfold is_ascii; lia|constructor|done|constructor].
Qed.

(** X16: on ASCII input, which every encoded string is, [decode] returns
    a string without unpaired surrogate, so that [encode] of it never
    raises, whatever the options of either. *)
Theorem decode_ascii_can_be_encoded (s : jsstring) (options : DecodeOptions)
    (options' : EncodeOptions) :
  Forall is_ascii s →
  ∃ d, decode (VString s) options = Returns d
       ∧ well_formed d = true
       ∧ returns (encode (VString d) options').
Proof.
  intros Hs. exists (decode_text options s).
  assert (well_formed (decode_text options s) = true) as Hw.
  { unfold decode_text.
    destruct (decodeURIComponent (plus_substituted options s)) as [d|] eqn:Hd.
    - eapply Decode_ascii_well_formed; [|exact Hd].
      unfold plus_substituted. destruct (plusAsSpace options); [|done].
      by apply plus_to_space_ascii.
    - by apply well_formed_ascii. }
  split_and!; [apply decode_decode_text|done|by apply encode_returns].
Qed.

Lemma decode_ascii_can_be_encoded_witness :
  ∃ d, decode (VString (js "caf%C3%A9+100%")) {| plusAsSpace := true |} = Returns d
       ∧ well_formed d = true
       ∧ returns (encode (VString d)
                    {| plusForSpace := false; strict := true; allowedChars := [] |}).
Proof.
  apply decode_ascii_can_be_encoded.
  repeat constructor; unfold is_ascii; cbn; lia.
Defined.

(** ** The copies of [verify.js] *)

Lemma percent_all_plain bs :
  Forall (λ b, 0 <= b < 256) bs →
  Forall (λ c, extra_reserved c = false) (percent_all bs).
Proof.
  induction 1 as [|b bs Hb _ IH]; [constructor|].
  change (percent_all (b :: bs)) with (percent b ++ percent_all bs).
  apply Forall_app; split; [|done].
  unfold percent. repeat apply Forall_cons_2; [done|apply hex_digit_plain; zlia..|constructor].
Qed.

Lemma extra_reserved_unescaped x : extra_reserved x = true → uriUnescaped x = true.
Proof.
  unfold extra_reserved. rewrite bool_decide_eq_true, !elem_of_cons, elem_of_nil.
  intros [->|[->|[->|[->|[->|[]]]]]]; reflexivity.
Qed.

(** The five characters reach the result of [encodeURIComponent] exactly
    when they are in its argument. *)
Lemma encodeURIComponent_extra t e x :
  Forall is_code_unit t → encodeURIComponent t = Returns e →
  extra_reserved x = true → (x ∈ e ↔ x ∈ t).
Proof.
  intros Hu He Hx. assert (well_formed t = true) as Hw.
  { pose proof (encodeURIComponent_well_formed t) as H. by rewrite He in H. }
  assert (∀ bs, Forall (λ b, 0 <= b < 256) bs → x ∉ percent_all bs) as Hnot.
  { intros bs Hbs Hin. apply percent_all_plain in Hbs.
    eapply Forall_forall in Hbs; [|exact Hin]. cbn in Hbs. congruence. }
  revert e Hu He. pattern t. revert t Hw. apply well_formed_ind.
  - by intros e _ [= <-].
  - intros c rest Hl Ht _ IH e [Hc Hrest]%Forall_cons.
    destruct (unit_is_scalar c Hc Hl Ht) as [Hs _].
    cbn [encodeURIComponent]. rewrite Hl, Ht.
    destruct (uriUnescaped c) eqn:Hun; intros (e' & He' & ->)%fmap_Returns_inv.
    + rewrite !elem_of_cons. by rewrite (IH e').
    + rewrite elem_of_app, elem_of_cons, (IH e') by done.
      pose proof (Hnot _ (utf8_octets_range c Hs)).
      pose proof (extra_reserved_unescaped x Hx).
      split; [intros [?|?]; [done|by right]|intros [->|?]; [congruence|by right]].
  - intros c c2 rest Hl Ht _ IH e (Hc & (Hc2 & Hrest)%Forall_cons)%Forall_cons.
    destruct (pair_is_scalar c c2 Hl Ht) as [Hs _].
    cbn [encodeURIComponent]. rewrite Hl, Ht.
    destruct (uriUnescaped c) eqn:Hun.
    { apply uriUnescaped_ascii in Hun. apply between_spec in Hl. lia. }
    intros (e' & He' & ->)%fmap_Returns_inv.
    rewrite elem_of_app, !elem_of_cons, (IH e') by done.
    pose proof (Hnot _ (utf8_octets_range _ Hs)).
    pose proof (extra_reserved_unescaped x Hx) as [? ?]%uriUnescaped_ascii.
    unfold is_leading_surrogate, is_trailing_surrogate in Hl, Ht.
    apply between_spec in Hl, Ht.
    split; [intros [?|?]; [done|by do 2 right]|intros [->|[->|?]]; [lia..|by right]].
Qed.

Lemma replace_pct20_elem x s :
  x ≠ 37 → x ≠ 50 → x ≠ 48 → x ∈ s → x ∈ replace_pct20 s.
Proof.
  intros H37 H50 H48. remember (length s) as n eqn:Hn. revert s Hn.
  induction n as [n IH] using lt_wf_ind. intros s ->.
  destruct s as [|c [|c2 [|c3 rest]]]; [done..|].
  rewrite replace_pct20_three. case_match eqn:Hcase.
  - apply andb_prop in Hcase as [[->%Z.eqb_eq ->%Z.eqb_eq]%andb_prop ->%Z.eqb_eq].
    rewrite !elem_of_cons. intros [?|[?|[?|Hin]]]; [done..|].
    right. eapply IH; [|done..]. cbn [length]. lia.
  - rewrite (elem_of_cons (_ :: _)), (elem_of_cons (replace_pct20 _)).
    intros [?|Hin]; [by left|]. right. eapply IH; [|done..]. cbn [length]. lia.
Qed.

(** [decodeURIComponent] undoes [encodeURIComponent]. *)
Lemma decodeURIComponent_encodeURIComponent t e :
  Forall is_code_unit t → encodeURIComponent t = Returns e →
  decodeURIComponent e = Returns t.
Proof.
  intros Hu He. assert (well_formed t = true) as Hw.
  { pose proof (encodeURIComponent_well_formed t) as H. by rewrite He in H. }
  revert e Hu He. pattern t. revert t Hw. apply well_formed_ind.
  - by intros e _ [= <-].
  - intros c rest Hl Ht _ IH e [Hc Hrest]%Forall_cons.
    destruct (unit_is_scalar c Hc Hl Ht) as [Hs Hbmp].
    cbn [encodeURIComponent]. rewrite Hl, Ht.
    destruct (uriUnescaped c) eqn:Hun; intros (e' & He' & ->)%fmap_Returns_inv.
    + rewrite decodeURIComponent_literal by (apply uriUnescaped_ascii in Hun; lia).
      by rewrite (IH e').
    + rewrite decodeURIComponent_escapes by done.
      by rewrite (IH e'), UTF16Encode_unit.
  - intros c c2 rest Hl Ht _ IH e (Hc & (Hc2 & Hrest)%Forall_cons)%Forall_cons.
    destruct (pair_is_scalar c c2 Hl Ht) as [Hs _].
    cbn [encodeURIComponent]. rewrite Hl, Ht.
    destruct (uriUnescaped c) eqn:Hun.
    { apply uriUnescaped_ascii in Hun. apply between_spec in Hl. lia. }
    intros (e' & He' & ->)%fmap_Returns_inv.
    rewrite decodeURIComponent_escapes by done.
    by rewrite (IH e'), UTF16Encode_pair.
Qed.

(** X17: the [encode] of [verify.js] and the library's return the same
    for a text [t] exactly when [strict] is off or [t] has none of
    [! ' ( ) *]: in strict mode the script leaves these five as they are,
    the library escapes them. *)
Theorem verify_encode_agrees (t : jsstring) (plus strict_ : bool) :
  text t →
  Verify.encode (VString t)
    {| plusForSpace := plus; strict := strict_; allowedChars := [] |}
  = encode (VString t)
      {| plusForSpace := plus; strict := strict_; allowedChars := [] |}
  ↔ strict_ = false ∨ Forall (λ c, extra_reserved c = false) t.
Proof.
  intros [Hu Hw].
  destruct strict_; [|split; [by left|done]].
  rewrite encode_strict_eq. cbn [Verify.encode encode strict plusForSpace negb].
  destruct (encodeURIComponent_returns t Hw) as [e He]. rewrite He.
  cbn [mbind completion_bind].
  assert (Forall (λ c, extra_reserved c = false) (rfc3986 e)) as Hplain.
  { eapply Forall_impl; [eapply rfc3986_chars, encodeURIComponent_chars; done|].
    intros c. unfold field_char. destruct (extra_reserved c) eqn:Hx; [|done].
    rewrite andb_false_r, orb_false_l. intros ->%Z.eqb_eq. done. }
  split.
  - intros Heq. right. apply Forall_forall. intros x Hin.
    destruct (extra_reserved x) eqn:Hx; [exfalso|done].
    apply (encodeURIComponent_extra t e x Hu He Hx) in Hin.
    assert (x ≠ 37 ∧ x ≠ 50 ∧ x ≠ 48) as (? & ? & ?).
    { revert Hx. unfold extra_reserved.
      rewrite bool_decide_eq_true, !elem_of_cons, elem_of_nil. lia. }
    assert (Forall (λ c, extra_reserved c = false)
              (if plus then replace_pct20 e else e)) as Hall.
    { injection Heq as ->. destruct plus; [|done].
      by apply replace_pct20_Forall. }
    assert (x ∈ (if plus then replace_pct20 e else e)) as Hin'
      by (destruct plus; [by apply replace_pct20_elem|done]).
    eapply Forall_forall in Hall; [|exact Hin']. cbn in Hall. congruence.
  - intros [?|Hno]; [done|].
    assert (Forall (λ c, extra_reserved c = false) e) as He'.
    { apply Forall_forall. intros x Hin.
      destruct (extra_reserved x) eqn:Hx; [|done].
      apply (encodeURIComponent_extra t e x Hu He Hx) in Hin.
      eapply Forall_forall in Hno; [|exact Hin]. cbn in Hno. congruence. }
    by rewrite (rfc3986_id e).
Qed.

Lemma verify_encode_agrees_witness :
  Verify.encode (VString (js "Hello World"))
    {| plusForSpace := true; strict := true; allowedChars := [] |}
  = encode (VString (js "Hello World"))
      {| plusForSpace := true; strict := true; allowedChars := [] |}
  ↔ true = false ∨ Forall (λ c, extra_reserved c = false) (js "Hello World").
Proof.
  apply verify_encode_agrees.
  split; [|reflexivity]. repeat constructor; unfold is_code_unit; lia.
Defined.

(** X18: the copies of [verify.js] round-trip as well, strict or not:
    for every text [t] its [encode] returns some [e] and its [decode]
    of [e] returns [t]. *)
Theorem verify_decode_encode (t : jsstring) (strict_ : bool) :
  text t →
  ∃ e, Verify.encode (VString t)
         {| plusForSpace := false; strict := strict_; allowedChars := [] |} = Returns e
       ∧ Verify.decode (VString e) default_decode = Returns t.
Proof.
  intros [Hu Hw]. cbn [Verify.encode Verify.decode strict plusForSpace
                         default_decode plusAsSpace].
  destruct (encodeURIComponent_returns t Hw) as [e He]. rewrite He.
  cbn [mbind completion_bind]. eexists. split; [done|].
  destruct strict_; cbn [negb].
  - by rewrite (decodeURIComponent_encodeURIComponent t e).
  - by rewrite (decodeURIComponent_rfc3986 t e).
Qed.

Lemma verify_decode_encode_witness :
  ∃ e, Verify.encode (VString (js "it's (fine)!"))
         {| plusForSpace := false; strict := true; allowedChars := [] |} = Returns e
       ∧ Verify.decode (VString e) default_decode = Returns (js "it's (fine)!").
Proof.
  apply verify_decode_encode.
  split; [|reflexivity]. repeat constructor; unfold is_code_unit; lia.
Defined.

(** ** [buildSearchUrl] of [examples.ts] *)

Lemma CreateDataProperty_map (o : list (jsstring * jsstring)) key value :
  (list_to_map (Examples.CreateDataProperty o key value) : gmap jsstring jsstring)
  = <[key := value]> (list_to_map o).
Proof.
  induction o as [|[k v] o IH]; [done|]. cbn [Examples.CreateDataProperty].
  case_bool_decide as Hk.
  - subst k. by rewrite !list_to_map_cons, insert_insert_eq.
  - rewrite !list_to_map_cons, IH. by apply insert_insert_ne.
Qed.

Lemma CreateDataProperty_keys (o : list (jsstring * jsstring)) key value k :
  k ∈ (Examples.CreateDataProperty o key value).*1 ↔ k ∈ o.*1 ∨ k = key.
Proof.
  induction o as [|[k0 v0] o IH].
  - cbn. rewrite list_elem_of_singleton, elem_of_nil. tauto.
  - cbn [Examples.CreateDataProperty]. case_bool_decide as Hk.
    + subst k0. cbn [fmap list_fmap fst]. rewrite elem_of_cons. tauto.
    + cbn [fmap list_fmap fst]. rewrite !elem_of_cons. fold (fmap (M := list) (@fst jsstring jsstring)).
      rewrite IH. tauto.
Qed.

Lemma CreateDataProperty_NoDup (o : list (jsstring * jsstring)) key value :
  NoDup o.*1 → NoDup (Examples.CreateDataProperty o key value).*1.
Proof.
  induction o as [|[k0 v0] o IH]; intros Hnd.
  - cbn. apply NoDup_singleton.
  - cbn [Examples.CreateDataProperty]. case_bool_decide as Hk; [done|].
    cbn [fmap list_fmap fst] in *. apply NoDup_cons in Hnd as [Hk0 Hnd].
    apply NoDup_cons. split; [|by apply IH].
    intros [?|?]%CreateDataProperty_keys; [done|congruence].
Qed.

Lemma CreateDataProperty_Forall (P : jsstring * jsstring → Prop) o key value :
  Forall P o → P (key, value) → Forall P (Examples.CreateDataProperty o key value).
Proof.
  intros Ho Hkv. induction Ho as [|[k0 v0] o Hk0 Ho IH].
  - by constructor.
  - cbn [Examples.CreateDataProperty]. case_bool_decide as Hk.
    + subst k0. by constructor.
    + by constructor.
Qed.

(** The object [{ ...o, ...filters }], as a map and as a list. *)
Lemma spread_properties (P : jsstring * jsstring → Prop)
    (filters o : list (jsstring * jsstring)) :
  NoDup o.*1 → Forall P o → Forall P filters →
  let params := foldl (λ o '(key, value), Examples.CreateDataProperty o key value)
                      o filters in
  NoDup params.*1 ∧ Forall P params
  ∧ (list_to_map params : gmap jsstring jsstring)
    = foldl (λ m kv, <[kv.1 := kv.2]> m) (list_to_map o) filters.
Proof.
  intros Hnd Ho Hf. revert o Hnd Ho.
  induction Hf as [|[k v] filters Hkv _ IH]; intros o Hnd Ho; [done|].
  cbn [foldl].
  destruct (IH (Examples.CreateDataProperty o k v)) as (? & ? & Hmap).
  - by apply CreateDataProperty_NoDup.
  - by apply CreateDataProperty_Forall.
  - split_and!; [done..|]. cbn zeta in Hmap. by rewrite Hmap, CreateDataProperty_map.
Qed.

Lemma foldl_insert_union (l : list (jsstring * jsstring)) (m : gmap jsstring jsstring) :
  NoDup l.*1 →
  foldl (λ (m : gmap jsstring jsstring) kv, <[kv.1 := kv.2]> m) m l = list_to_map l ∪ m.
Proof.
  induction l as [|[k v] l IH] using rev_ind.
  - intros _. cbn. by rewrite (left_id_L ∅ (∪)).
  - rewrite fmap_app, NoDup_app. intros (Hl & Hk & _).
    rewrite foldl_app, list_to_map_snoc, IH;
      [cbn [foldl fst snd]; by rewrite insert_union_l|done|].
    intros Hin. apply (Hk k Hin). cbn. left.
Qed.

Lemma Object_entries_Permutation (o : list (jsstring * jsstring)) :
  Examples.Object_entries o ≡ₚ o.
Proof. apply filter_app_complement. Qed.

(** The call of [examples.ts], and one with an array index among the
    filters. *)
Example test_buildSearchUrl :
  Examples.buildSearchUrl (js "https://api.example.com/search")
    (js "machine learning " ++ [0x673A; 0x5668; 0x5B66; 0x4E60]%Z)
    [(js "category", js "AI & ML"); (js "lang", js "en")]
  = Returns (js ("https://api.example.com/search?q=machine%20learning%20"
                 ++ "%E6%9C%BA%E5%99%A8%E5%AD%A6%E4%B9%A0"
                 ++ "&category=AI%20%26%20ML&lang=en"))
  ∧ Examples.buildSearchUrl (js "/s") (js "x") [(js "2", js "b"); (js "page", js "1")]
    = Returns (js "/s?2=b&q=x&page=1").
Proof. split; vm_compute; reflexivity. Qed.

(** X19: [buildSearchUrl] writes [baseUrl], a ['?'] and a query that
    [decodeQuery] reads back as [filters] with [q] added: a filter named
    [q] takes the place of the [query] argument.  This for filters whose
    keys are not ["__proto__"] and whose keys and values are text, and a
    [query] that is text. *)
Theorem buildSearchUrl_filters_win (baseUrl query : jsstring)
    (filters : list (jsstring * jsstring)) :
  NoDup filters.*1 →
  Forall (λ kv, kv.1 ≠ js "__proto__" ∧ text kv.1 ∧ text kv.2) filters →
  text query →
  ∃ e, Examples.buildSearchUrl baseUrl query filters = Returns (baseUrl ++ js "?" ++ e)
       ∧ decodeQuery e default_decode
         = Returns (list_to_map filters ∪ {[ js "q" := query ]}).
Proof.
  intros Hnd Hfilters Hquery.
  set (P := λ kv : jsstring * jsstring,
              kv.1 ≠ js "__proto__" ∧ text kv.1 ∧ text kv.2).
  destruct (spread_properties P filters [(js "q", query)]) as (Hnd' & HP & Hmap).
  { cbn. apply NoDup_singleton. }
  { constructor; [|constructor]. split_and!; [done| |done].
    split; [|reflexivity]. repeat constructor; unfold is_code_unit; lia. }
  { done. }
  cbn zeta in *. unfold Examples.buildSearchUrl.
  set (params := foldl (λ o '(key, value), Examples.CreateDataProperty o key value)
                       [(js "q", query)] filters) in *.
  pose proof (Object_entries_Permutation params) as Hperm.
  destruct (query_roundtrip_under Examples.no_number default_encode default_decode
              inverse_options_default
              (prod_map id QString <$> Examples.Object_entries params))
    as (e & He & Hd).
  { rewrite fst_prod_map. by rewrite Hperm. }
  { apply Forall_fmap. rewrite Hperm. eapply Forall_impl; [exact HP|].
    by intros [k v]. }
  exists e. rewrite He. split; [done|]. rewrite Hd. f_equal.
  rewrite list_to_map_fmap, <- map_fmap_compose.
  rewrite (list_to_map_proper _ params) by (by rewrite ?Hperm).
  rewrite Hmap, foldl_insert_union by done.
  change (list_to_map [(js "q", query)] : gmap jsstring jsstring)
    with ({[ js "q" := query ]} : gmap jsstring jsstring).
  rewrite <- (map_fmap_id (list_to_map filters ∪ {[ js "q" := query ]})) at 2.
  by apply map_fmap_ext.
Qed.

Lemma buildSearchUrl_filters_win_witness :
  ∃ e, Examples.buildSearchUrl (js "https://api.example.com/search")
         (js "machine learning")
         [(js "category", js "AI & ML"); (js "q", js "deep learning")]
       = Returns (js "https://api.example.com/search" ++ js "?" ++ e)
       ∧ decodeQuery e default_decode
         = Returns (list_to_map [(js "category", js "AI & ML");
                                 (js "q", js "deep learning")]
                    ∪ {[ js "q" := js "machine learning" ]}).
Proof.
  apply buildSearchUrl_filters_win.
  - cbn. repeat constructor; rewrite ?elem_of_cons, ?elem_of_nil; intros H;
      repeat destruct H as [H|H]; done.
  - repeat constructor; cbn; unfold is_code_unit; try lia; discriminate.
  - split; [|reflexivity]. repeat constructor; unfold is_code_unit; lia.
Defined.
